(** * Recommender notebooks: the NCF and xDeepFM quick-start flows

    A shallow embedding of the code cells of the two notebooks of the
    repository (the NCF MovieLens notebook and
    [examples/00_quick_start/xdeepfm_criteo.ipynb]) and the properties the
    specification states about them.

    Data frames are lists of rows (row order is the frame's order), integer
    identifiers and timestamps are [Z], finite scores are rationals [Q],
    float scores that may be [nan] or infinite are of type [score], the
    values computed with [np.log] are reals [R]. *)

From Stdlib Require Import ZArith QArith Qround Reals Qreals Lra Lia Ascii String.
From stdpp Require Import base option list sorting strings gmap.

Close Scope R_scope.
Close Scope Q_scope.
Open Scope Z_scope.
Open Scope nat_scope.

(** ** Part I. The NCF notebook *)

(** Decidable order on the rationals, for [filter] and [decide]. *)
#[global] Instance Qle_dec : RelDecision Qle.
Proof.
  intros x y. destruct (Qlt_le_dec y x) as [Hlt | Hle].
  - right. apply Qlt_not_le, Hlt.
  - left. exact Hle.
Defined.

Module NCF.

(** [TOP_K = 10], the parameter cell of the notebook. *)
Definition TOP_K : nat := 10.

(** *** Leave-one-out evaluation loop (section 3.4.3) *)

(** The loop is described twice.  The definitions of this part describe
    it on arrays of two or more finite scores, which [np.squeeze] leaves as
    they are and on which every comparison is the order of the rationals;
    the part on arrays of floats below describes it on every array, with
    the 0-d array [np.squeeze] makes of a single score and with [nan] and
    infinite scores.  On arrays of two or more finite scores the two
    descriptions agree (lemma [cell_loop_finite]). *)

(** [output >= output[0]]: the elementwise comparison of the score array
    with its first entry.  Indexing an empty array raises [IndexError]. *)
Definition ge_first (output : list Q) : option (list bool) :=
  match output with
  | [] => None
  | o0 :: _ => Some (map (fun o => Qle_bool o0 o) output)
  end.

(** Python's builtin [sum] over an array of booleans. *)
Definition sum_bools (bs : list bool) : nat :=
  foldl (fun acc (b : bool) => acc + (if b then 1 else 0)) 0 bs.

(** [rank = sum(output >= output[0])]. *)
Definition rank (output : list Q) : option nat :=
  sum_bools <$> ge_first output.

(** The accumulators [ndcgs] and [hit_ratio] of the loop. *)
Record eval_acc : Type := EvalAcc {
  ndcgs : list R;
  hit_ratio : list Z
}.

(** [np.log] is the natural logarithm. *)
Definition np_log (x : R) : R := ln x.

(** One iteration of the loop body on an array of two or more finite
    scores, which [output = np.squeeze(output)] leaves as it is. *)
Definition eval_body (k : nat) (acc : eval_acc) (output : list Q)
  : option eval_acc :=
  match rank output with
  | None => None
  | Some rk =>
      if rk <=? k
      then Some (EvalAcc (ndcgs acc ++ [(1 / np_log (INR rk + 1))%R])
                         (hit_ratio acc ++ [1%Z]))
      else Some (EvalAcc (ndcgs acc ++ [0%R]) (hit_ratio acc ++ [0%Z]))
  end.

(** The value appended to [ndcgs] for a single list, and the value appended
    to [hit_ratio]. *)
Definition list_ndcg (k : nat) (output : list Q) : option R :=
  acc ← eval_body k (EvalAcc [] []) output; head (ndcgs acc).

Definition list_hit (k : nat) (output : list Q) : option Z :=
  acc ← eval_body k (EvalAcc [] []) output; head (hit_ratio acc).

(** [for b in data.test_loader(): ...] over the score arrays returned by
    [model.predict] for the successive batches. *)
Fixpoint eval_loop (k : nat) (acc : eval_acc) (outputs : list (list Q))
  : option eval_acc :=
  match outputs with
  | [] => Some acc
  | output :: rest =>
      match eval_body k acc output with
      | None => None
      | Some acc' => eval_loop k acc' rest
      end
  end.

(** [np.mean] of a list of integers; the mean of an empty list is [nan],
    rendered as [None]. *)
Definition sum_Z (l : list Z) : Z := foldr Z.add 0%Z l.

Definition np_mean (l : list Z) : option Q :=
  match l with
  | [] => None
  | _ => Some (inject_Z (sum_Z l) / inject_Z (Z.of_nat (length l)))%Q
  end.

(** [np.mean] of the real-valued [ndcgs]. *)
Definition sum_R (l : list R) : R := foldr Rplus 0%R l.

Definition np_mean_R (l : list R) : option R :=
  match l with
  | [] => None
  | _ => Some (sum_R l / INR (length l))%R
  end.

Definition eval_hr (acc : eval_acc) : option Q := np_mean (hit_ratio acc).
Definition eval_ndcg (acc : eval_acc) : option R := np_mean_R (ndcgs acc).

(** The closed-form definitions the metrics are compared with: the number
    of scores at least as large as the first one, the base-2 logarithm, and
    the NDCG of a list with a single relevant item at position [r]. *)
Definition count_ge_first (output : list Q) : nat :=
  match output with
  | [] => 0
  | o0 :: _ => length (filter (fun o => Qle o0 o) output)
  end.

Definition log2 (x : R) : R := (ln x / ln 2)%R.

Definition closed_form_ndcg (k r : nat) : R :=
  if r <=? k then (1 / log2 (INR r + 1))%R else 0%R.

(** Two fixed score lists of 101 entries: the positive item scored above all
    100 negatives, and the positive item scored below all of them. *)
Definition best_first_scores : list Q := 1%Q :: replicate 100 0%Q.
Definition worst_first_scores : list Q := 0%Q :: replicate 100 1%Q.

(** *** The loop on arrays of floats *)

(** A float score: [nan], an infinity or a finite value. *)
Inductive score : Type :=
| SNaN
| SNegInf
| SFin (q : Q)
| SPosInf.

(** [a >= b] on floats: a comparison with [nan] is false. *)
Definition score_ge (a b : score) : bool :=
  match a, b with
  | SNaN, _ | _, SNaN => false
  | SPosInf, _ => true
  | _, SNegInf => true
  | SFin x, SFin y => Qle_bool y x
  | _, _ => false
  end.

(** What [np.squeeze] returns for the scores of one batch: the 0-d array
    of the score when there is one score, the 1-d array otherwise. *)
Inductive ndarray : Type :=
| Array0 (x : score)
| Array1 (l : list score).

Definition np_squeeze (output : list score) : ndarray :=
  match output with
  | [x] => Array0 x
  | _ => Array1 output
  end.

(** [output >= output[0]]: indexing a 0-d array or an empty array raises
    [IndexError]. *)
Definition cell_ge_first (a : ndarray) : option (list bool) :=
  match a with
  | Array0 _ => None
  | Array1 [] => None
  | Array1 (o0 :: l) => Some (map (fun o => score_ge o o0) (o0 :: l))
  end.

(** [rank = sum(output >= output[0])]. *)
Definition cell_rank (a : ndarray) : option nat :=
  sum_bools <$> cell_ge_first a.

(** A float that is finite or [inf]; [1 / x] on numpy floats is [inf] at
    [x = 0.0] (numpy warns and does not raise). *)
Inductive xreal : Type :=
| XFin (x : R)
| XInf.

Definition np_reciprocal (x : R) : xreal :=
  if Req_dec_T x 0 then XInf else XFin (1 / x).

Record cell_acc : Type := CellAcc {
  c_ndcgs : list xreal;
  c_hit_ratio : list Z
}.

(** One iteration of the loop body. *)
Definition cell_body (k : nat) (acc : cell_acc) (output : list score)
  : option cell_acc :=
  match cell_rank (np_squeeze output) with
  | None => None
  | Some rk =>
      if rk <=? k
      then Some (CellAcc
                   (c_ndcgs acc ++ [np_reciprocal (np_log (INR rk + 1))])
                   (c_hit_ratio acc ++ [1%Z]))
      else Some (CellAcc (c_ndcgs acc ++ [XFin 0]) (c_hit_ratio acc ++ [0%Z]))
  end.

Fixpoint cell_loop (k : nat) (acc : cell_acc) (outputs : list (list score))
  : option cell_acc :=
  match outputs with
  | [] => Some acc
  | output :: rest =>
      match cell_body k acc output with
      | None => None
      | Some acc' => cell_loop k acc' rest
      end
  end.

(** [np.mean] of a list of non-negative floats, some of which may be
    [inf]: [inf] as soon as one entry is, [nan] ([None]) for the empty
    list. *)
Definition is_inf (v : xreal) : bool :=
  match v with XInf => true | XFin _ => false end.

Definition finite_part (v : xreal) : R :=
  match v with XFin x => x | XInf => 0%R end.

Definition np_mean_x (l : list xreal) : option xreal :=
  match l with
  | [] => None
  | _ => Some (if existsb is_inf l then XInf
               else XFin (sum_R (finite_part <$> l) / INR (length l)))
  end.

Definition cell_hr (acc : cell_acc) : option Q := np_mean (c_hit_ratio acc).
Definition cell_ndcg (acc : cell_acc) : option xreal :=
  np_mean_x (c_ndcgs acc).

(** Notions used to describe the loop on floats: the number of scores at
    least as large as the first one, a first score that is [nan], and the
    accumulators and arrays of the first description seen as accumulators
    and arrays of floats. *)
Definition count_ge_head (output : list score) : nat :=
  match output with
  | [] => 0
  | o0 :: _ => length (List.filter (fun o => score_ge o o0) output)
  end.

Definition nan_first (output : list score) : bool :=
  match output with
  | SNaN :: _ => true
  | _ => false
  end.

Definition float_acc (acc : eval_acc) : cell_acc :=
  CellAcc (XFin <$> ndcgs acc) (hit_ratio acc).

Definition float_array (output : list Q) : list score := SFin <$> output.

(** Two arrays of floats for examples: a [nan] positive score, and a
    positive score that ties with one negative. *)
Definition nan_first_scores : list score :=
  [SNaN; SFin 1; SFin 0].

Definition tie_scores : list score :=
  [SFin (1 # 2); SFin (1 # 2); SFin 0; SNaN; SPosInf].

(** *** Interaction frames (section 3.1) *)

(** A row of the MovieLens frame loaded with the header
    [userID, itemID, rating, timestamp]. *)
Record interaction : Type := Interaction {
  userID : Z;
  itemID : Z;
  rating : Q;
  timestamp : Z
}.

(** [Series.unique()]: the distinct values in order of first appearance. *)
Fixpoint unique_go (seen : list Z) (l : list Z) : list Z :=
  match l with
  | [] => []
  | x :: l' =>
      if decide (x ∈ seen) then unique_go seen l'
      else x :: unique_go (x :: seen) l'
  end.

Definition unique (l : list Z) : list Z := unique_go [] l.

(** [Series.isin(values)] for one entry. *)
Definition isin (x : Z) (values : list Z) : bool := bool_decide (x ∈ values).

(** [df[mask]]: boolean indexing keeps the rows whose mask entry is true,
    in the frame's order. *)
Definition bool_index {A : Type} (mask : A -> bool) (df : list A) : list A :=
  List.filter mask df.

(** The filtering cell:
    [test = test[test["userID"].isin(train["userID"].unique())]]
    [test = test[test["itemID"].isin(train["itemID"].unique())]]. *)
Definition filter_test (train test : list interaction) : list interaction :=
  let test1 :=
    bool_index (fun r => isin (userID r) (unique (userID <$> train))) test in
  bool_index (fun r => isin (itemID r) (unique (itemID <$> train))) test1.

(** Order of [sort_values([userID, timestamp])]. *)
Definition chrono_le (a b : interaction) : Prop :=
  (userID a < userID b)%Z \/
  (userID a = userID b /\ (timestamp a <= timestamp b)%Z).

#[global] Instance chrono_le_dec : RelDecision chrono_le.
Proof. intros a b. unfold chrono_le. apply _. Defined.

(** The rows of one user, in the frame's order. *)
Definition group_of (u : Z) (df : list interaction) : list interaction :=
  bool_index (fun r => bool_decide (userID r = u)) df.

(** [cumcount() + 1]: every row paired with its 1-based position inside its
    user's group. *)
Fixpoint cumcount_go (seen : list Z) (df : list interaction)
  : list (nat * interaction) :=
  match df with
  | [] => []
  | r :: df' =>
      (S (length (List.filter (fun u => bool_decide (u = userID r)) seen)), r)
        :: cumcount_go (userID r :: seen) df'
  end.

Section ChronoSplit.

(** [cut n] is the number of a user's [n] interactions that the chosen
    ratio sends to the training partition. *)
Variable cut : nat -> nat.

(** Modelled from the spec: [python_chrono_split] is defined in
    [recommenders.datasets.python_splitters], which is not among the source
    files.  The spec describes it as the chronological split of the
    interaction records into a training and a test partition (75/25 in the
    notebook): each user's interactions are ordered by timestamp, the
    earliest ones go to the training partition and the remaining ones to
    the test partition. *)
Definition python_chrono_split (df : list interaction)
  : list interaction * list interaction :=
  let data := merge_sort chrono_le df in
  let ranked := cumcount_go [] data in
  let in_train (p : nat * interaction) :=
    p.1 <=? cut (length (group_of (userID p.2) data)) in
  (snd <$> bool_index in_train ranked,
   snd <$> bool_index (fun p => negb (in_train p)) ranked).

(** [train, test = python_chrono_split(df, 0.75)] followed by the
    filtering cell. *)
Definition notebook_train (df : list interaction) : list interaction :=
  (python_chrono_split df).1.

Definition notebook_test (df : list interaction) : list interaction :=
  filter_test (notebook_train df) (python_chrono_split df).2.

End ChronoSplit.

(** [test.groupby("userID").last().reset_index()]: one row per distinct
    user, users in increasing order; every column holds the last value of
    the user's group. *)
Definition last_row (u : Z) (g : list interaction) : option interaction :=
  i ← last (itemID <$> g);
  x ← last (rating <$> g);
  t ← last (timestamp <$> g);
  Some (Interaction u i x t).

Definition groupby_last (df : list interaction) : list interaction :=
  omap (fun u => last_row u (group_of u df))
       (merge_sort Z.le (unique (userID <$> df))).

(** *** Test batches and predictions *)

(** A batch [b = (user_input, item_input, labels)]. *)
Record batch : Type := Batch {
  user_input : list Z;
  item_input : list Z;
  labels : list Z
}.

Section Model.

(** The score the fitted network gives to a (user, item) pair; the network
    itself belongs to the deep-learning runtime. *)
Variable predict : Z -> Z -> Q.

(** [model.predict(user_input, item_input, is_list=True)], squeezed. *)
Definition predict_list (users items : list Z) : list Q :=
  zip_with predict users items.

(** [sample_negatives u] is the sample of items drawn for user [u] among
    those the user has not interacted with. *)
Variable sample_negatives : Z -> list Z.

(** Modelled from the spec: the batch [Dataset.test_loader] builds for one
    positive test instance; the class is defined in
    [recommenders.models.ncf.dataset], which is not among the source files.
    The notebook documents it: the positive pair comes first with label 1,
    followed by the sampled negative items with label 0. *)
Definition test_batch (r : interaction) : batch :=
  let negs := sample_negatives (userID r) in
  Batch (replicate (S (length negs)) (userID r))
        (itemID r :: negs)
        (1%Z :: replicate (length negs) 0%Z).

(** Modelled from the spec: [Dataset.test_loader] (not among the source
    files) generates one test batch for every positive test instance, in
    the order of the test file. *)
Definition test_loader (test_data : list interaction) : list batch :=
  test_batch <$> test_data.

(** The whole evaluation cell: the loop over [data.test_loader()]. *)
Definition batch_output (b : batch) : list Q :=
  predict_list (user_input b) (item_input b).

Definition evaluate (batches : list batch) : option eval_acc :=
  eval_loop TOP_K (EvalAcc [] []) (batch_output <$> batches).

(** *** Generic evaluation: the [all_predictions] frame (section 3.4.2) *)

(** The three accumulators [users, items, preds] and one pass of the
    [for user in train.userID.unique()] loop. *)
Definition cross_body (item : list Z) (st : list Z * list Z * list Q)
  (user : Z) : list Z * list Z * list Q :=
  let '(users, items, preds) := st in
  let user_l := replicate (length item) user in
  (users ++ user_l, items ++ item, preds ++ predict_list user_l item).

Definition cross_loop (train : list interaction)
  : list Z * list Z * list Q :=
  let item := unique (itemID <$> train) in
  foldl (cross_body item) ([], [], []) (unique (userID <$> train)).

Record prediction_row : Type := PredictionRow {
  p_userID : Z;
  p_itemID : Z;
  p_prediction : Q
}.

(** [pd.DataFrame(data={"userID": users, "itemID": items,
    "prediction": preds})]. *)
Definition prediction_frame (st : list Z * list Z * list Q)
  : list prediction_row :=
  let '(users, items, preds) := st in
  zip_with (fun ui p => PredictionRow ui.1 ui.2 p) (zip users items) preds.

(** A row of [merged]: the columns of [train] and the [prediction]
    column; a missing value is [None]. *)
Record merged_row : Type := MergedRow {
  m_userID : Z;
  m_itemID : Z;
  m_rating : option Q;
  m_timestamp : option Z;
  m_prediction : option Q
}.

Definition key_match (r : interaction) (p : prediction_row) : bool :=
  bool_decide (userID r = p_userID p) && bool_decide (itemID r = p_itemID p).

(** [pd.merge(left, right, on=["userID", "itemID"], how="outer")]: a row
    for every pair of rows with equal keys, and a row with missing values
    on the other side for every row without a partner; an outer join
    orders its rows by the join keys, [userID] first, and rows with the
    same keys stay in the order of [left], then of [right]. *)
Definition left_join_rows (right : list prediction_row) (r : interaction)
  : list merged_row :=
  match bool_index (key_match r) right with
  | [] => [MergedRow (userID r) (itemID r) (Some (rating r))
                     (Some (timestamp r)) None]
  | ps => (fun p => MergedRow (userID r) (itemID r) (Some (rating r))
                      (Some (timestamp r)) (Some (p_prediction p)))
          <$> ps
  end.

Definition right_only_row (p : prediction_row) : merged_row :=
  MergedRow (p_userID p) (p_itemID p) None None (Some (p_prediction p)).

Definition unmatched (left : list interaction) (p : prediction_row) : bool :=
  negb (existsb (fun r => key_match r p) left).

Definition join_rows (left : list interaction)
  (right : list prediction_row) : list merged_row :=
  flat_map (left_join_rows right) left
  ++ (right_only_row <$> bool_index (unmatched left) right).

Definition key_le (a b : merged_row) : bool :=
  (m_userID a <? m_userID b)%Z
  || ((m_userID a =? m_userID b)%Z && (m_itemID a <=? m_itemID b)%Z).

Fixpoint insert_by_key (x : merged_row) (l : list merged_row)
  : list merged_row :=
  match l with
  | [] => [x]
  | y :: l' => if key_le x y then x :: l else y :: insert_by_key x l'
  end.

Definition sort_by_key (l : list merged_row) : list merged_row :=
  foldr insert_by_key [] l.

Definition merge_outer (left : list interaction)
  (right : list prediction_row) : list merged_row :=
  sort_by_key (join_rows left right).


(** A row of the final [all_predictions]: [merged] without [rating]. *)
Record all_row : Type := AllRow {
  a_userID : Z;
  a_itemID : Z;
  a_timestamp : option Z;
  a_prediction : option Q
}.

Definition isnull {A : Type} (x : option A) : bool :=
  match x with None => true | Some _ => false end.

Definition drop_rating (m : merged_row) : all_row :=
  AllRow (m_userID m) (m_itemID m) (m_timestamp m) (m_prediction m).

(** The cell that builds [all_predictions]. *)
Definition all_predictions (train : list interaction) : list all_row :=
  let all_predictions0 := prediction_frame (cross_loop train) in
  let merged := merge_outer train all_predictions0 in
  drop_rating <$> bool_index (fun m => isnull (m_rating m)) merged.

(** Notions used to describe the frames: the rows the loop adds for one
    user, accumulators of equal length, the key of a row, and the final
    row of a pair without a training interaction. *)
Definition user_rows (item : list Z) (u : Z) : list prediction_row :=
  map (fun i => PredictionRow u i (predict u i)) item.

Definition aligned (st : list Z * list Z * list Q) : Prop :=
  length st.1.1 = length st.1.2 /\ length st.1.1 = length st.2.

Definition row_key (p : prediction_row) : Z * Z := (p_userID p, p_itemID p).

Definition unrated_row (p : prediction_row) : all_row :=
  AllRow (p_userID p) (p_itemID p) None (Some (p_prediction p)).


(** *** Predictions for the test rows (section 3.4.1) *)

(** [predictions = [[row.userID, row.itemID,
    model.predict(row.userID, row.itemID)] for (_, row) in test.iterrows()]]
    turned into a frame with the columns [userID, itemID, prediction]. *)
Definition predictions_frame (test : list interaction) : list prediction_row :=
  (fun row => PredictionRow (userID row) (itemID row)
                (predict (userID row) (itemID row))) <$> test.

End Model.

(** *** The recorded metrics (sections 3.4.2, 3.4.3 and 3.5.3) *)

Section Recording.

(** The ranking metrics [map_at_k], [ndcg_at_k], [precision_at_k] and
    [recall_at_k] of [recommenders.evaluation.python_evaluation], applied to
    the test frame and a frame of predictions with [k]; the library is not
    among the source files and the functions are taken as they are. *)
Variables map_at_k ndcg_at_k precision_at_k recall_at_k :
  list interaction -> list all_row -> nat -> option xreal.

(** The float-valued variables of the notebook ([eval_map], [eval_ndcg],
    ...): a mapping from the variable name to its value, a float that is
    finite, [inf] or [nan] ([None]).  An assignment inserts or overwrites
    the binding of the name. *)
Definition generic_eval_cell (test : list interaction)
  (all_predictions : list all_row) (globals : gmap string (option xreal))
  : gmap string (option xreal) :=
  let g1 := <["eval_map" := map_at_k test all_predictions TOP_K]> globals in
  let g2 := <["eval_ndcg" := ndcg_at_k test all_predictions TOP_K]> g1 in
  let g3 := <["eval_precision" := precision_at_k test all_predictions TOP_K]>
              g2 in
  <["eval_recall" := recall_at_k test all_predictions TOP_K]> g3.

(** The leave-one-out cell: the loop, then [eval_ndcg = np.mean(ndcgs)] and
    [eval_hr = np.mean(hit_ratio)].  The cell raises when the loop does. *)
Definition loo_eval_cell (outputs : list (list score))
  (globals : gmap string (option xreal))
  : option (gmap string (option xreal)) :=
  acc ← cell_loop TOP_K (CellAcc [] []) outputs;
  Some (<["eval_hr" := (fun hr => XFin (Q2R hr)) <$> cell_hr acc]>
          (<["eval_ndcg" := cell_ndcg acc]> globals)).

(** The evaluation cell of the pre-trained model: [eval_map2], ... *)
Definition generic_eval_cell2 (test : list interaction)
  (all_predictions : list all_row) (globals : gmap string (option xreal))
  : gmap string (option xreal) :=
  let g1 := <["eval_map2" := map_at_k test all_predictions TOP_K]> globals in
  let g2 := <["eval_ndcg2" := ndcg_at_k test all_predictions TOP_K]> g1 in
  let g3 := <["eval_precision2" := precision_at_k test all_predictions TOP_K]>
              g2 in
  <["eval_recall2" := recall_at_k test all_predictions TOP_K]> g3.

(** [sb.glue(name, variable)]: reading an unbound variable raises
    [NameError]. *)
Definition glue (name variable : string)
  (globals : gmap string (option xreal))
  (scraps : gmap string (option xreal))
  : option (gmap string (option xreal)) :=
  v ← globals !! variable; Some (<[name := v]> scraps).

(** The cell that records the results. *)
Definition glue_cell (globals : gmap string (option xreal))
  : option (gmap string (option xreal)) :=
  s1 ← glue "map" "eval_map" globals ∅;
  s2 ← glue "ndcg" "eval_ndcg" globals s1;
  s3 ← glue "precision" "eval_precision" globals s2;
  s4 ← glue "recall" "eval_recall" globals s3;
  s5 ← glue "map2" "eval_map2" globals s4;
  s6 ← glue "ndcg2" "eval_ndcg2" globals s5;
  s7 ← glue "precision2" "eval_precision2" globals s6;
  glue "recall2" "eval_recall2" globals s7.

(** The four cells in the order of the notebook; the cells between them
    assign none of these variables. *)
Definition record_metrics (test : list interaction)
  (all_predictions all_predictions2 : list all_row)
  (outputs : list (list score)) (globals : gmap string (option xreal))
  : option (gmap string (option xreal)) :=
  g2 ← loo_eval_cell outputs (generic_eval_cell test all_predictions globals);
  glue_cell (generic_eval_cell2 test all_predictions2 g2).

End Recording.

(** A small frame for examples: two users, rows in arbitrary order, and the
    cut [round(0.75 * n)] (Python rounds halves to the even neighbour). *)
Definition cut_75 (n : nat) : nat :=
  let q := (3 * n) / 4 in
  match (3 * n) mod 4 with
  | 0 | 1 => q
  | 2 => if Nat.even q then q else S q
  | _ => S q
  end.

Definition small_train : list interaction :=
  [ Interaction 1 10 4 20; Interaction 2 11 3 30; Interaction 1 11 5 25 ].

Definition small_test : list interaction :=
  [ Interaction 1 12 4 40; Interaction 3 10 3 50; Interaction 2 10 5 45 ].

Definition sample_frame : list interaction :=
  [ Interaction 2 10 3 50; Interaction 1 10 4 20; Interaction 1 11 5 10;
    Interaction 2 11 1 40; Interaction 1 12 2 30; Interaction 2 12 2 60;
    Interaction 1 13 3 40; Interaction 2 10 5 70; Interaction 1 11 1 50;
    Interaction 2 13 4 80; Interaction 1 10 2 60; Interaction 2 11 3 90;
    Interaction 1 12 5 70; Interaction 1 11 4 80; Interaction 2 12 1 95;
    Interaction 2 10 1 99 ].

End NCF.

(** ** Part II. The xDeepFM notebook *)

Module DeepRec.

(** *** Hyperparameter bag *)

(** The values of the bag: counts, flags, list-valued layer sizes,
    learning rate and regularisation coefficients, names. *)
Inductive hvalue : Type :=
| HNone
| HBool (b : bool)
| HInt (n : Z)
| HFloat (x : Q)
| HStr (s : string)
| HInts (l : list Z).

(** Modelled from the spec: [prepare_hparams] is defined in
    [recommenders.models.deeprec.deeprec_utils], which is not among the
    source files.  The spec describes it as the step that merges a base
    configuration file with caller-supplied overrides into a single flat
    mapping from option name to value; the notebook adds that parameters
    passed to the function overwrite the settings of the yaml file.  [yaml]
    is the flat mapping the base file denotes, [kwargs] the keyword
    arguments of the call in the order they are written. *)
Definition prepare_hparams (yaml : gmap string hvalue)
  (kwargs : list (string * hvalue)) : gmap string hvalue :=
  foldl (fun config kv => <[kv.1 := kv.2]> config) yaml kwargs.

(** The keyword arguments of the two calls of the notebook. *)
Definition synthetic_kwargs : list (string * hvalue) :=
  [ ("FEATURE_COUNT", HInt 1000); ("FIELD_COUNT", HInt 10);
    ("cross_l2", HFloat (1 # 10000)); ("embed_l2", HFloat (1 # 10000));
    ("learning_rate", HFloat (1 # 1000)); ("epochs", HInt 15);
    ("batch_size", HInt 128) ].

Definition criteo_kwargs : list (string * hvalue) :=
  [ ("FEATURE_COUNT", HInt 2300000); ("FIELD_COUNT", HInt 39);
    ("cross_l2", HFloat (1 # 100)); ("embed_l2", HFloat (1 # 100));
    ("layer_l2", HFloat (1 # 100)); ("learning_rate", HFloat (2 # 1000));
    ("batch_size", HInt 4096); ("epochs", HInt 10);
    ("cross_layer_sizes", HInts [20; 10]%Z); ("init_value", HFloat (1 # 10));
    ("layer_sizes", HInts [20; 20]%Z); ("use_Linear_part", HBool true);
    ("use_CIN_part", HBool true); ("use_DNN_part", HBool true) ].

(** A base file for examples. *)
Definition sample_yaml : gmap string hvalue :=
  list_to_map
    [ ("method", HStr "classification"); ("epochs", HInt 50);
      ("batch_size", HInt 4096); ("learning_rate", HFloat (1 # 10000));
      ("layer_sizes", HInts [100; 100]%Z); ("use_CIN_part", HBool true) ].

(** *** The FFM text format *)

(** [str.split(sep)]: the pieces between the separators; adjacent
    separators give empty pieces. *)
Fixpoint split (sep : ascii) (s : string) : list string :=
  match s with
  | EmptyString => [EmptyString]
  | String c s' =>
      if decide (c = sep) then EmptyString :: split sep s'
      else match split sep s' with
           | [] => [String c EmptyString]
           | w :: ws => String c w :: ws
           end
  end.

(** Decimal numerals. *)
Fixpoint parse_digits (acc : Z) (s : string) : option Z :=
  match s with
  | EmptyString => Some acc
  | String c s' =>
      match Ascii.is_nat c with
      | Some d => parse_digits (10 * acc + Z.of_nat d) s'
      | None => None
      end
  end.

Definition parse_int (s : string) : option Z :=
  match s with
  | EmptyString => None
  | _ => parse_digits 0 s
  end.

(** An unsigned decimal: a numeral, or an integer part and a fractional
    part around a point, of which one may be empty ([3], [0.5], [.5],
    [5.]). *)
Definition parse_unsigned (s : string) : option Q :=
  match split "." s with
  | [a] => n ← parse_int a; Some (inject_Z n)
  | [a; b] =>
      if decide (a = EmptyString /\ b = EmptyString) then None
      else
        n ← parse_digits 0 a; m ← parse_digits 0 b;
        Some (Qplus (inject_Z n)
                    (Qmake m (Pos.pow 10 (Pos.of_nat (String.length b)))))
  | _ => None
  end.

(** An optional sign in front of a text. *)
Definition strip_sign (s : string) : bool * string :=
  match s with
  | String c r =>
      if decide (c = "-"%char) then (true, r)
      else if decide (c = "+"%char) then (false, r)
      else (false, s)
  | EmptyString => (false, s)
  end.

Definition parse_signed_int (s : string) : option Z :=
  n ← parse_int (strip_sign s).2;
  Some (if (strip_sign s).1 then (- n)%Z else n).

Definition parse_signed_decimal (s : string) : option Q :=
  x ← parse_unsigned (strip_sign s).2;
  Some (if (strip_sign s).1 then Qopp x else x).

(** The exponent marker in lower case. *)
Fixpoint lower_e (s : string) : string :=
  match s with
  | EmptyString => EmptyString
  | String c s' => String (if decide (c = "E"%char) then "e"%char else c)
                          (lower_e s')
  end.

(** A feature value: a finite decimal with an optional sign, optionally
    followed by an exponent ([-0.5], [3], [1.25e-3], [2E4]). *)
Definition parse_number (s : string) : option Q :=
  match split "e" (lower_e s) with
  | [m] => parse_signed_decimal m
  | [m; x] =>
      v ← parse_signed_decimal m; e ← parse_signed_int x;
      Some (Qmult v (Qpower 10 e))
  | _ => None
  end.

(** The label is binary. *)
Definition parse_label (s : string) : option Z :=
  if decide (s = "0") then Some 0%Z
  else if decide (s = "1") then Some 1%Z
  else None.

(** What a parse error reports: the line, the offending token and the kind
    of defect. *)
Inductive parse_reason : Type :=
| BadLabel
| WrongTokenCount
| NonNumericId
| NonNumericValue.

Record parse_error : Type := ParseError {
  pe_line : nat;
  pe_token : string;
  pe_reason : parse_reason
}.

Definition reason_text (r : parse_reason) : string :=
  match r with
  | BadLabel => "label is not 0 or 1"
  | WrongTokenCount => "expected field:feature:value"
  | NonNumericId => "field and feature ids must be numeric"
  | NonNumericValue => "feature value must be numeric"
  end.

(** A parsed triple, with indices counted from 0 (the ids of the file start
    from 1), and a parsed record. *)
Record feature : Type := Feature {
  f_field : Z;
  f_feat : Z;
  f_value : Q
}.

Record ffm_record : Type := FfmRecord {
  r_label : Z;
  r_features : list feature
}.

(** Modelled from the spec: [FFMTextIterator] is defined in
    [recommenders.models.deeprec.io.iterator], which is not among the source
    files.  The spec gives its contract: each line is
    [label field1:feat1:val1 field2:feat2:val2 ...]; a malformed line (wrong
    token count, non-numeric ids) fails with a parse error. *)
Definition parse_token (lineno : nat) (tok : string)
  : parse_error + feature :=
  match split ":" tok with
  | [f; t; v] =>
      match parse_int f, parse_int t with
      | Some fi, Some ti =>
          match parse_number v with
          | Some x => inr (Feature (fi - 1) (ti - 1) x)
          | None => inl (ParseError lineno tok NonNumericValue)
          end
      | _, _ => inl (ParseError lineno tok NonNumericId)
      end
  | _ => inl (ParseError lineno tok WrongTokenCount)
  end.

(** Modelled from the spec: the triples of a line are parsed from left to
    right and the first one that fails ends the parse of the line
    ([FFMTextIterator] is not among the source files). *)
Fixpoint parse_tokens (lineno : nat) (toks : list string)
  : parse_error + list feature :=
  match toks with
  | [] => inr []
  | tok :: rest =>
      match parse_token lineno tok with
      | inl e => inl e
      | inr f =>
          match parse_tokens lineno rest with
          | inl e => inl e
          | inr fs => inr (f :: fs)
          end
      end
  end.

(** Modelled from the spec: one line of the file, a binary label followed
    by the triples, separated by single spaces ([FFMTextIterator] is not
    among the source files). *)
Definition parse_line (lineno : nat) (line : string)
  : parse_error + ffm_record :=
  match split " " line with
  | [] => inl (ParseError lineno line BadLabel)
  | lab :: toks =>
      match parse_label lab with
      | None => inl (ParseError lineno lab BadLabel)
      | Some l =>
          match parse_tokens lineno toks with
          | inl e => inl e
          | inr fs => inr (FfmRecord l fs)
          end
      end
  end.

(** A batch: the four parallel arrays and the layout
    (records, FIELD_COUNT) they are grouped in.  The field index of an entry
    of the [i]-th record of the batch is its slot [i * FIELD_COUNT + field]
    in that layout. *)
Record ffm_batch : Type := FfmBatch {
  b_labels : list Z;
  b_field_indices : list Z;
  b_feature_indices : list Z;
  b_feature_values : list Q;
  b_layout : nat * nat
}.

Definition record_entries (field_count : nat) (i : nat) (r : ffm_record)
  : list (Z * Z * Q) :=
  map (fun f => (Z.of_nat i * Z.of_nat field_count + f_field f,
                 f_feat f, f_value f)%Z)
      (r_features r).

(** Modelled from the spec: the structure built for the records of one
    batch, in which every record contributes the same layout of FIELD_COUNT
    slots ([FFMTextIterator] is not among the source files). *)
Definition convert_data (field_count : nat) (records : list ffm_record)
  : ffm_batch :=
  let entries := concat (imap (record_entries field_count) records) in
  FfmBatch (r_label <$> records)
           ((fun e => e.1.1) <$> entries)
           ((fun e => e.1.2) <$> entries)
           ((fun e => e.2) <$> entries)
           (length records, field_count).

(** Modelled from the spec: the iterator reads the lines in order and
    produces the batches one by one; the result is the list of batches
    produced and, when a line fails to parse, the error that ended the
    iteration. *)
Fixpoint load_go (field_count batch_size : nat) (lineno : nat)
  (pending : list ffm_record) (lines : list string)
  : list ffm_batch * option parse_error :=
  match lines with
  | [] =>
      (match pending with
       | [] => []
       | _ => [convert_data field_count pending]
       end, None)
  | line :: rest =>
      match parse_line lineno line with
      | inl e => ([], Some e)
      | inr r =>
          let pending' := pending ++ [r] in
          if length pending' =? batch_size
          then let res := load_go field_count batch_size (S lineno) [] rest in
               (convert_data field_count pending' :: res.1, res.2)
          else load_go field_count batch_size (S lineno) pending' rest
      end
  end.

(** Modelled from the spec: the iterator over the lines of a file, for a
    requested batch size. *)
Definition load_data (field_count batch_size : nat) (lines : list string)
  : list ffm_batch * option parse_error :=
  load_go field_count batch_size 0 [] lines.

(** *** Well-formed and malformed lines *)

(** The text of a line of the form
    [label field1:feat1:val1 field2:feat2:val2 ...]: the label and, for
    every triple, the texts of its three parts. *)
Record token_text : Type := TokenText {
  t_field : string;
  t_feat : string;
  t_value : string
}.

Definition render_token (tk : token_text) : string :=
  t_field tk +:+ ":" +:+ t_feat tk +:+ ":" +:+ t_value tk.

Fixpoint render_tokens (toks : list token_text) : string :=
  match toks with
  | [] => EmptyString
  | tk :: rest => " " +:+ render_token tk +:+ render_tokens rest
  end.

Definition render_line (lt : string * list token_text) : string :=
  lt.1 +:+ render_tokens lt.2.

(** A triple is well formed when its field and feature ids are numerals
    that start from 1 and its value is a number; a line is well formed when
    its label is binary and its triples are well formed. *)
Definition wf_token (tk : token_text) : bool :=
  match parse_int (t_field tk), parse_int (t_feat tk),
        parse_number (t_value tk) with
  | Some fi, Some ti, Some _ => (1 <=? fi)%Z && (1 <=? ti)%Z
  | _, _, _ => false
  end.

Definition wf_line (lt : string * list token_text) : bool :=
  (bool_decide (lt.1 = "0") || bool_decide (lt.1 = "1"))
  && forallb wf_token lt.2.


(** What the text of a well-formed line denotes: the number of each id and
    of each value, ids counted from 1. *)
Definition field_id (tk : token_text) : Z :=
  default 0%Z (parse_int (t_field tk)).

Definition feature_id (tk : token_text) : Z :=
  default 0%Z (parse_int (t_feat tk)).

Definition value_of (tk : token_text) : Q :=
  default 0%Q (parse_number (t_value tk)).

(** The label a binary label text denotes. *)
Definition label_value (lab : string) : Z :=
  if decide (lab = "1") then 1%Z else 0%Z.

(** The record a well-formed line denotes, indices counted from 0. *)
Definition denote_token (tk : token_text) : feature :=
  Feature (field_id tk - 1) (feature_id tk - 1) (value_of tk).

Definition denote_line (lt : string * list token_text) : ffm_record :=
  FfmRecord (label_value lt.1) (denote_token <$> lt.2).





(** A line is malformed when one of its tokens after the label has a wrong
    number of parts or an id that is not a numeral. *)
Definition bad_token (tok : string) : Prop :=
  match split ":" tok with
  | [f; t; _] => parse_int f = None \/ parse_int t = None
  | _ => True
  end.

Definition malformed (line : string) : Prop :=
  Exists bad_token (tail (split " " line)).

(** A string without a given character. *)
Fixpoint lacks (sep : ascii) (s : string) : Prop :=
  match s with
  | EmptyString => True
  | String c s' => c <> sep /\ lacks sep s'
  end.




(** *** The model wrapper and the deep-learning runtime *)

(** The requests the wrapper forwards to the deep-learning runtime, indexed
    by the type of their answer. *)
Inductive request : Type -> Type :=
| ReadLines (path : string) : request (list string)
| BuildGraph (hparams : gmap string hvalue) (seed : option Z) : request unit
| TrainStep (b : ffm_batch) : request Q
| InferStep (b : ffm_batch) : request (list Q)
| WriteScores (path : string) (scores : list Q) : request unit.

Inductive any_request : Type :=
| AnyRequest {T : Type} (req : request T).

(** The model wrapper (an [XDeepFMModel] object): it holds configuration,
    never the weights. *)
Record model : Type := Model {
  m_seed : option Z
}.

(** The three entry points of a constructed model. *)
Inductive model_op : Type :=
| Fit (train_file valid_file : string)
| RunEval (file : string)
| Predict (infile outfile : string).

Section Runtime.

(** The state of the runtime (graph, weights, files) and its failures
    (out-of-memory, shape mismatch, ...) are its own. *)
Context {rt_state fw_error : Type}.

(** One call into the runtime. *)
Variable runtime :
  forall T : Type, request T -> rt_state -> rt_state * (fw_error + T).

(** [auc] and [logloss] of predictions against labels, computed by the
    numeric libraries. *)
Variable metrics : list Q -> list Z -> gmap string Q.

(** The errors of the repository: parse failures, configuration errors
    and framework-level failures. *)
Inductive error : Type :=
| ParseFailure (e : parse_error)
| ConfigError (option_name : string)
| FrameworkError (e : fw_error).

(** The store the notebook runs in: the hyperparameter bag object (the
    notebook variable [hparams] and the model's [self.hparams] refer to
    this one object), the runtime, the record of the calls made to the
    runtime with the failure each one raised, and whether a [Timer] is
    running. *)
Record world : Type := World {
  w_bag : gmap string hvalue;
  w_rt : rt_state;
  w_log : list (any_request * option fw_error);
  w_timer : bool
}.

(** Computations that read and update the store and either return or
    raise. *)
Definition M (A : Type) : Type := world -> world * (error + A).

Definition ret {A : Type} (x : A) : M A := fun w => (w, inr x).

Definition throw {A : Type} (e : error) : M A := fun w => (w, inl e).

Definition bind {A B : Type} (m : M A) (k : A -> M B) : M B :=
  fun w =>
    match m w with
    | (w', inl e) => (w', inl e)
    | (w', inr x) => k x w'
    end.

Definition call {T : Type} (req : request T) : M T :=
  fun w =>
    let (rt', res) := runtime T req (w_rt w) in
    match res with
    | inl e =>
        (World (w_bag w) rt' (w_log w ++ [(AnyRequest req, Some e)])
               (w_timer w),
         inl (FrameworkError e))
    | inr x =>
        (World (w_bag w) rt' (w_log w ++ [(AnyRequest req, None)])
               (w_timer w),
         inr x)
    end.

(** [for x in xs: body(x)], collecting the results. *)
Fixpoint for_each {A B : Type} (body : A -> M B) (xs : list A)
  : M (list B) :=
  match xs with
  | [] => ret []
  | x :: xs' =>
      bind (body x) (fun y =>
      bind (for_each body xs') (fun ys => ret (y :: ys)))
  end.

(** [for _ in range(n): body]. *)
Fixpoint repeat_n (n : nat) (body : M unit) : M unit :=
  match n with
  | O => ret tt
  | S n' => bind body (fun _ => repeat_n n' body)
  end.

(** Reading an integer option of the bag; a missing or ill-typed option
    is a configuration error. *)
Definition get_int (name : string) : M Z :=
  fun w =>
    match w_bag w !! name with
    | Some (HInt n) => (w, inr n)
    | _ => (w, inl (ConfigError name))
    end.

Definition get_bag : M (gmap string hvalue) := fun w => (w, inr (w_bag w)).

(** Modelled from the spec: the constructor of [XDeepFMModel], which is
    defined in [recommenders.models.deeprec.models], not among the source
    files.  The spec describes the wrapper: it is built from the
    hyperparameter bag, missing or inconsistent hyperparameters surface as
    configuration errors at construction, and the graph is built by the
    runtime. *)
Definition XDeepFMModel (seed : option Z) : M model :=
  bind (get_int "FEATURE_COUNT") (fun _ =>
  bind (get_int "FIELD_COUNT") (fun _ =>
  bind (get_int "batch_size") (fun _ =>
  bind (get_int "epochs") (fun _ =>
  bind get_bag (fun hparams =>
  bind (call (BuildGraph hparams seed)) (fun _ =>
  ret (Model seed))))))).

(** Modelled from the spec: the iterator over a file, with the field count
    and the batch size of the bag ([FFMTextIterator] is not among the source
    files). *)
Definition load_data_from_file (path : string)
  : M (list ffm_batch * option parse_error) :=
  bind (get_int "FIELD_COUNT") (fun fc =>
  bind (get_int "batch_size") (fun bs =>
  bind (call (ReadLines path)) (fun lines =>
  ret (load_data (Z.to_nat fc) (Z.to_nat bs) lines)))).

(** Modelled from the spec: the loop that consumes the batches of the
    iterator one by one; the parse error of a line surfaces when the loop
    reaches it. *)
Definition for_batches {A : Type}
  (src : list ffm_batch * option parse_error) (body : ffm_batch -> M A)
  : M (list A) :=
  bind (for_each body src.1) (fun ys =>
  match src.2 with
  | Some e => throw (ParseFailure e)
  | None => ret ys
  end).

(** Modelled from the spec: [run_eval], a thin forwarding call into the
    runtime for every batch of the file, followed by the metrics (the
    method is not among the source files). *)
Definition run_eval (m : model) (file : string) : M (gmap string Q) :=
  bind (load_data_from_file file) (fun src =>
  bind (for_batches src (fun b => call (InferStep b))) (fun preds =>
  ret (metrics (concat preds) (concat (b_labels <$> src.1))))).

(** Modelled from the spec: [fit], for every epoch one training call per
    batch of the training file in a single control flow, then the
    evaluation of the validation file (the method is not among the source
    files). *)
Definition fit (m : model) (train_file valid_file : string) : M model :=
  bind (get_int "epochs") (fun epochs =>
  bind (repeat_n (Z.to_nat epochs)
          (bind (load_data_from_file train_file) (fun src =>
           bind (for_batches src (fun b => call (TrainStep b))) (fun _ =>
           bind (run_eval m valid_file) (fun _ => ret tt)))))
       (fun _ => ret m)).

(** Modelled from the spec: [predict], a thin forwarding call into the
    runtime for every batch of the input file; the scores are written to
    the output file (the method is not among the source files). *)
Definition predict (m : model) (infile outfile : string) : M model :=
  bind (load_data_from_file infile) (fun src =>
  bind (for_batches src (fun b => call (InferStep b))) (fun preds =>
  bind (call (WriteScores outfile (concat preds))) (fun _ =>
  ret m))).

(** A call of one of the three entry points, as the cells of the notebook
    make them. *)
Definition run_op (m : model) (op : model_op) : M unit :=
  match op with
  | Fit train_file valid_file =>
      bind (fit m train_file valid_file) (fun _ => ret tt)
  | RunEval file => bind (run_eval m file) (fun _ => ret tt)
  | Predict infile outfile =>
      bind (predict m infile outfile) (fun _ => ret tt)
  end.

(** Starting and stopping the timer. *)
Definition set_timer (b : bool) (w : world) : world :=
  World (w_bag w) (w_rt w) (w_log w) b.

(** Modelled from the spec: [Timer] is defined in
    [recommenders.utils.timer], which is not among the source files.
    [with Timer() as t: body] starts the timer, runs the body and stops the
    timer; it handles no exception of the body. *)
Definition with_timer {A : Type} (body : M A) : M A :=
  fun w =>
    let (w', res) := body (set_timer true w) in
    (set_timer false w', res).

(** A run of the notebook after [prepare_hparams]: the model is built and
    the cells call its entry points in order, each inside a [Timer] or
    not; the first exception ends the run. *)
Definition run_cell (m : model) (cell : bool * model_op) : M unit :=
  if cell.1 then with_timer (run_op m cell.2) else run_op m cell.2.

(** The run of one experiment: construction, then the cells. *)
Definition notebook_run (seed : option Z) (cells : list (bool * model_op))
  : M unit :=
  bind (XDeepFMModel seed) (fun m =>
  bind (for_each (run_cell m) cells) (fun _ => ret tt)).

(** The store a run starts in, with the bag [prepare_hparams] returned. *)
Definition initial_world (hparams : gmap string hvalue) (rt : rt_state)
  : world :=
  World hparams rt [] false.

(** The failures recorded in a stretch of the call record, and the
    framework failure a result carries. *)
Definition failures (entries : list (any_request * option fw_error))
  : list fw_error :=
  omap snd entries.

Definition raised {A : Type} (res : error + A) : option fw_error :=
  match res with
  | inl (FrameworkError e) => Some e
  | _ => None
  end.

(** A stretch of the call record agrees with an outcome: when the outcome
    is the framework failure [e], the last call of the stretch is the one
    that raised [e] and no call before it failed; otherwise no call of the
    stretch failed. *)
Definition trace_ok (entries : list (any_request * option fw_error))
  (outcome : option fw_error) : Prop :=
  match outcome with
  | Some e =>
      exists pre req, entries = pre ++ [(req, Some e)] /\ failures pre = []
  | None => failures entries = []
  end.

(** A computation is transparent when it leaves the hyperparameter bag
    as it found it and its calls agree with its outcome. *)
Definition transparent {A : Type} (m : M A) : Prop :=
  forall w,
    w_bag (m w).1 = w_bag w /\
    exists entries,
      w_log (m w).1 = w_log w ++ entries /\
      trace_ok entries (raised (m w).2).

End Runtime.

(** A toy runtime for examples: its state counts the training steps made,
    the second training step runs out of memory, every file holds the same
    three lines. *)
Definition toy_lines : list string :=
  [ "1 1:3:0.5 2:7:1"; "0 3:1:1"; "1 1:1:1 2:2:2 3:3:3" ].

Definition toy_runtime (T : Type) (req : request T) (steps : nat)
  : nat * (string + T) :=
  match req in request T0 return nat * (string + T0) with
  | ReadLines _ => (steps, inr toy_lines)
  | BuildGraph _ _ => (steps, inr tt)
  | TrainStep _ =>
      if steps =? 1 then (steps, inl "out of memory")
      else (S steps, inr 0%Q)
  | InferStep b => (steps, inr (map (fun _ => (1 # 2)%Q) (b_labels b)))
  | WriteScores _ _ => (steps, inr tt)
  end.

Definition toy_metrics (preds : list Q) (labels : list Z) : gmap string Q :=
  {[ "auc" := (1 # 2)%Q ]}.

Definition toy_hparams : gmap string hvalue :=
  prepare_hparams sample_yaml
    [ ("FEATURE_COUNT", HInt 10); ("FIELD_COUNT", HInt 3);
      ("batch_size", HInt 2); ("epochs", HInt 2) ].

(** The cells of the first experiment of the notebook. *)
Definition synthetic_cells : list (bool * model_op) :=
  [ (false, RunEval "synthetic_part_2");
    (false, Fit "synthetic_part_0" "synthetic_part_1");
    (false, RunEval "synthetic_part_2");
    (false, Predict "synthetic_part_2" "output.txt") ].


End DeepRec.

(** ** Properties of the NCF notebook *)

Section NCFFacts.

Import NCF.

(** *** Frames: boolean indexing and [unique] *)

Lemma elem_of_bool_index {A : Type} (mask : A -> bool) (df : list A) (x : A) :
  x ∈ bool_index mask df <-> x ∈ df /\ mask x = true.
Proof.
  unfold bool_index. rewrite !list_elem_of_In. apply filter_In.
Qed.

Lemma bool_index_sublist {A : Type} (mask : A -> bool) (df : list A) :
  bool_index mask df `sublist_of` df.
Proof.
  induction df as [| x df IH]; simpl; [constructor |].
  destruct (mask x); [by apply sublist_skip | by apply sublist_cons].
Qed.

Lemma elem_of_unique_go (seen l : list Z) (x : Z) :
  x ∈ unique_go seen l <-> x ∈ l /\ x ∉ seen.
Proof.
  revert seen. induction l as [| y l IH]; intros seen; simpl.
  - split; [intros H; inversion H | intros [H _]; inversion H].
  - destruct (decide (y ∈ seen)) as [Hin | Hnin].
    + rewrite IH, elem_of_cons. split.
      * intros [? ?]; auto.
      * intros [[-> | ?] ?]; [contradiction | auto].
    + rewrite !elem_of_cons, IH, elem_of_cons. split.
      * intros [-> | [? ?]]; [auto | split; auto].
      * intros [[-> | ?] ?]; [auto |].
        destruct (decide (x = y)) as [-> | Hne]; [auto |].
        right. split; [done |]. intros [? | ?]; done.
Qed.

Lemma elem_of_unique (l : list Z) (x : Z) : x ∈ unique l <-> x ∈ l.
Proof.
  unfold unique. rewrite elem_of_unique_go. split; [by intros [? _] |].
  intros H; split; [done |]. apply not_elem_of_nil.
Qed.

Lemma NoDup_unique_go (seen l : list Z) : NoDup (unique_go seen l).
Proof.
  revert seen. induction l as [| y l IH]; intros seen; simpl.
  - constructor.
  - destruct (decide (y ∈ seen)); [apply IH |].
    constructor; [| apply IH].
    rewrite elem_of_unique_go, elem_of_cons. intros [_ H]. apply H. by left.
Qed.

Lemma NoDup_unique (l : list Z) : NoDup (unique l).
Proof. apply NoDup_unique_go. Qed.

Lemma isin_unique_true (x : Z) (l : list Z) :
  isin x (unique l) = true <-> x ∈ l.
Proof.
  unfold isin. rewrite bool_decide_eq_true. apply elem_of_unique.
Qed.

(** *** The leave-one-out evaluation loop *)

Lemma sum_bools_from (bs : list bool) (n : nat) :
  foldl (fun acc (b : bool) => acc + (if b then 1 else 0)) n bs
  = n + length (List.filter (fun b => b) bs).
Proof.
  revert n. induction bs as [| b bs IH]; intros n; simpl; [lia |].
  rewrite IH. destruct b; simpl; lia.
Qed.

Lemma count_true_map_Qle (o0 : Q) (l : list Q) :
  length (List.filter (fun b : bool => b) (map (fun o => Qle_bool o0 o) l))
  = length (filter (fun o => Qle o0 o) l).
Proof.
  induction l as [| x l IH]; simpl; [done |].
  rewrite filter_cons. destruct (decide (o0 <= x)%Q) as [Hle | Hnle].
  - apply Qle_bool_iff in Hle. rewrite Hle. simpl. by rewrite IH.
  - destruct (Qle_bool o0 x) eqn:E; [| done].
    apply Qle_bool_iff in E. contradiction.
Qed.

(** The rank of the loop is the number of scores at least as large as the
    first one. *)
Lemma rank_count (o0 : Q) (l : list Q) :
  rank (o0 :: l) = Some (count_ge_first (o0 :: l)).
Proof.
  unfold rank, ge_first, count_ge_first.
  change (Some (sum_bools (map (fun o => Qle_bool o0 o) (o0 :: l)))
          = Some (length (filter (fun o => Qle o0 o) (o0 :: l)))).
  f_equal. unfold sum_bools. rewrite sum_bools_from.
  apply count_true_map_Qle.
Qed.

Lemma rank_nil : rank [] = None.
Proof. reflexivity. Qed.

(** The first score always counts: the rank is at least 1. *)
Lemma count_ge_first_pos (o0 : Q) (l : list Q) :
  1 <= count_ge_first (o0 :: l).
Proof.
  unfold count_ge_first. rewrite filter_cons.
  destruct (decide (o0 <= o0)%Q) as [_ | Hn]; [simpl; lia |].
  exfalso. apply Hn, Qle_refl.
Qed.

Lemma count_ge_first_le_length (output : list Q) :
  count_ge_first output <= length output.
Proof.
  destruct output as [| o0 l]; [done |].
  unfold count_ge_first. apply length_filter.
Qed.

(** What one iteration appends. *)
Lemma eval_body_cons (k : nat) (acc : eval_acc) (o0 : Q) (l : list Q) :
  eval_body k acc (o0 :: l) =
  let r := count_ge_first (o0 :: l) in
  Some (if r <=? k
        then EvalAcc (ndcgs acc ++ [(1 / ln (INR r + 1))%R])
                     (hit_ratio acc ++ [1%Z])
        else EvalAcc (ndcgs acc ++ [0%R]) (hit_ratio acc ++ [0%Z])).
Proof.
  unfold eval_body. rewrite rank_count. cbv zeta.
  destruct (count_ge_first (o0 :: l) <=? k); reflexivity.
Qed.

(** The value the loop records as the NDCG of one list: the reciprocal of
    the natural logarithm of [rank + 1] inside the top [k], 0 outside. *)
Lemma list_ndcg_natural_log (k : nat) (o0 : Q) (l : list Q) :
  list_ndcg k (o0 :: l) =
  Some (if count_ge_first (o0 :: l) <=? k
        then (1 / ln (INR (count_ge_first (o0 :: l)) + 1))%R else 0%R).
Proof.
  unfold list_ndcg. rewrite eval_body_cons. cbv zeta.
  destruct (count_ge_first (o0 :: l) <=? k); reflexivity.
Qed.

Lemma list_hit_indicator (k : nat) (o0 : Q) (l : list Q) :
  list_hit k (o0 :: l) =
  Some (if count_ge_first (o0 :: l) <=? k then 1%Z else 0%Z).
Proof.
  unfold list_hit. rewrite eval_body_cons. cbv zeta.
  destruct (count_ge_first (o0 :: l) <=? k); reflexivity.
Qed.

Lemma ln_2_lt_1 : (ln 2 < 1)%R.
Proof.
  rewrite <- (ln_exp 1). apply ln_increasing; [lra |].
  pose proof (exp_ineq1 1) as H. lra.
Qed.

Lemma ln_2_pos : (0 < ln 2)%R.
Proof. pose proof ln_lt_2. lra. Qed.

(** Inside the top [k] the recorded value is the closed-form NDCG divided by
    [ln 2], hence strictly larger than it. *)
Lemma list_ndcg_vs_closed_form (k : nat) (o0 : Q) (l : list Q) :
  count_ge_first (o0 :: l) <= k ->
  exists v, list_ndcg k (o0 :: l) = Some v /\
    (v * ln 2)%R = closed_form_ndcg k (count_ge_first (o0 :: l)) /\
    (closed_form_ndcg k (count_ge_first (o0 :: l)) < v)%R.
Proof.
  intros Hk. pose proof (count_ge_first_pos o0 l) as Hpos.
  set (r := count_ge_first (o0 :: l)) in *.
  rewrite list_ndcg_natural_log. fold r.
  unfold closed_form_ndcg, log2.
  apply Nat.leb_le in Hk. rewrite Hk. eexists; split; [reflexivity |].
  assert (Hr : (1 <= INR r)%R) by (change 1%R with (INR 1); by apply le_INR).
  assert (Hln : (0 < ln (INR r + 1))%R).
  { rewrite <- ln_1. apply ln_increasing; lra. }
  pose proof ln_2_pos as H2. pose proof ln_2_lt_1 as H21.
  assert (Heq : (1 / ln (INR r + 1) * ln 2
                 = 1 / (ln (INR r + 1) / ln 2))%R) by (field; lra).
  split; [exact Heq |].
  rewrite <- Heq.
  assert (Hv : (0 < 1 / ln (INR r + 1))%R).
  { apply Rdiv_lt_0_compat; lra. }
  nra.
Qed.

(** The loop never fails on non-empty score lists, and appends one entry per
    list to each accumulator. *)
Lemma eval_loop_appends (k : nat) (outputs : list (list Q)) (acc : eval_acc) :
  Forall (fun o => o <> []) outputs ->
  exists acc', eval_loop k acc outputs = Some acc' /\
    hit_ratio acc' = hit_ratio acc ++
      map (fun o => if count_ge_first o <=? k then 1%Z else 0%Z) outputs /\
    ndcgs acc' = ndcgs acc ++
      map (fun o => if count_ge_first o <=? k
                    then (1 / ln (INR (count_ge_first o) + 1))%R else 0%R)
          outputs.
Proof.
  intros Hne. revert acc.
  induction Hne as [| o outputs Ho _ IH]; intros acc; simpl.
  - exists acc. by rewrite !app_nil_r.
  - destruct o as [| o0 l]; [done |].
    rewrite eval_body_cons. cbv zeta.
    destruct (IH (if count_ge_first (o0 :: l) <=? k
        then EvalAcc (ndcgs acc ++ [(1 / ln (INR (count_ge_first (o0 :: l)) + 1))%R])
                     (hit_ratio acc ++ [1%Z])
        else EvalAcc (ndcgs acc ++ [0%R]) (hit_ratio acc ++ [0%Z])))
      as (acc' & Hrun & Hh & Hn).
    exists acc'. split; [exact Hrun |].
    rewrite Hh, Hn.
    destruct (count_ge_first (o0 :: l) <=? k); simpl;
      by rewrite <- !app_assoc.
Qed.

Lemma sum_Z_indicators {A : Type} (P : A -> Prop) `{!forall x, Decision (P x)}
  (f : A -> bool) (l : list A) :
  (forall x, f x = true <-> P x) ->
  sum_Z (map (fun x => if f x then 1%Z else 0%Z) l)
  = Z.of_nat (length (filter P l)).
Proof.
  intros Hf. induction l as [| x l IH]; [done |].
  rewrite filter_cons.
  change (sum_Z (map (fun x => if f x then 1%Z else 0%Z) (x :: l)))
    with ((if f x then 1 else 0)
          + sum_Z (map (fun x => if f x then 1%Z else 0%Z) l))%Z.
  rewrite IH. destruct (decide (P x)) as [HP | HP].
  - apply Hf in HP. rewrite HP. simpl length. lia.
  - destruct (f x) eqn:E; [apply Hf in E; contradiction | lia].
Qed.

(** C1. At the list of 101 scores whose positive item is scored above all
    negatives the rank is 1 and the closed-form NDCG is [1 / log2 2 = 1];
    the loop records [1 / ln 2], which is larger than 1, and so is the
    overall NDCG of a test set made of this list. *)
Theorem ndcg_best_first_exceeds_closed_form :
  length best_first_scores = 101 /\
  count_ge_first best_first_scores = 1 /\
  list_ndcg TOP_K best_first_scores = Some (1 / ln 2)%R /\
  closed_form_ndcg TOP_K 1 = 1%R /\
  (1 < 1 / ln 2)%R /\
  exists acc,
    eval_loop TOP_K (EvalAcc [] []) [best_first_scores] = Some acc /\
    eval_ndcg acc = Some ((1 / ln 2 + 0) / 1)%R.
Proof.
  assert (Hc : count_ge_first best_first_scores = 1) by (vm_compute; reflexivity).
  split; [reflexivity |]. split; [exact Hc |].
  pose proof ln_2_pos as Hpos. pose proof ln_2_lt_1 as Hlt.
  split; [| split; [| split]].
  - unfold best_first_scores in *. rewrite list_ndcg_natural_log, Hc.
    simpl. replace (1 + 1)%R with 2%R by lra. reflexivity.
  - unfold closed_form_ndcg, log2. simpl.
    replace (1 + 1)%R with 2%R by lra. field. lra.
  - apply (Rmult_lt_reg_r (ln 2)); [exact Hpos |].
    replace (1 / ln 2 * ln 2)%R with 1%R by (field; lra). lra.
  - unfold best_first_scores in *. cbn [eval_loop].
    rewrite eval_body_cons, Hc. simpl.
    eexists. split; [reflexivity |].
    unfold eval_ndcg, np_mean_R. simpl.
    replace (1 + 1)%R with 2%R by lra. reflexivity.
Qed.

(** C2. For lists of 101 scores the loop records the hit indicator 1 exactly
    for the lists in which at most 10 scores are at least as large as the
    first (positive) score, 0 for the others, and the overall HR is the mean
    of the indicators: the number of hits divided by the number of lists. *)
Theorem hit_ratio_top_10_membership (outputs : list (list Q)) :
  Forall (fun o => length o = 101) outputs ->
  exists acc,
    eval_loop TOP_K (EvalAcc [] []) outputs = Some acc /\
    Forall2 (fun o h => (h = 1%Z <-> count_ge_first o <= 10) /\
                        (h = 1%Z \/ h = 0%Z))
            outputs (hit_ratio acc) /\
    (outputs <> [] ->
     eval_hr acc = np_mean (hit_ratio acc) /\
     eval_hr acc =
       Some (Qdiv
         (inject_Z (Z.of_nat (length
            (filter (fun o => count_ge_first o <= 10) outputs))))
         (inject_Z (Z.of_nat (length outputs))))).
Proof.
  intros Hlen.
  destruct (eval_loop_appends TOP_K outputs (EvalAcc [] []))
    as (acc & Hrun & Hh & _).
  { eapply Forall_impl; [exact Hlen |]. intros o Ho ->. discriminate. }
  simpl in Hh. exists acc. split; [exact Hrun |]. split.
  - rewrite Hh. apply Forall2_fmap_r, Forall_Forall2_diag, Forall_forall.
    intros o _. unfold TOP_K, compose.
    destruct (count_ge_first o <=? 10) eqn:E.
    + apply Nat.leb_le in E. split; [| by left].
      split; [intros _; exact E | reflexivity].
    + apply Nat.leb_gt in E. split; [| by right].
      split; [discriminate | lia].
  - intros Hne. split; [reflexivity |].
    unfold eval_hr, np_mean. rewrite Hh.
    destruct outputs as [| o outputs]; [done |].
    rewrite length_map.
    rewrite (sum_Z_indicators (fun o => count_ge_first o <= 10)).
    + reflexivity.
    + intros x. unfold TOP_K. apply Nat.leb_le.
Qed.

(** The theorem above at two lists: one hit and one miss, HR = 1/2. *)
Lemma hit_ratio_top_10_membership_witness :
  exists acc,
    eval_loop TOP_K (EvalAcc [] []) [best_first_scores; worst_first_scores]
      = Some acc /\
    hit_ratio acc = [1%Z; 0%Z] /\
    eval_hr acc = Some (1 # 2)%Q.
Proof.
  destruct (hit_ratio_top_10_membership [best_first_scores; worst_first_scores])
    as (acc & Hrun & Hhits & Hmean).
  - repeat constructor.
  - exists acc. split; [exact Hrun |].
    vm_compute in Hrun. injection Hrun as <-.
    split; reflexivity.
Defined.

(** *** The [all_predictions] frame *)

Section AllPredictions.

Variable predict : Z -> Z -> Q.

Lemma predict_list_replicate (u : Z) (item : list Z) :
  predict_list predict (replicate (length item) u) item
  = map (predict u) item.
Proof.
  unfold predict_list. induction item as [| i item IH]; simpl; [done |].
  by rewrite IH.
Qed.

Lemma frame_of_one_user (u : Z) (item : list Z) :
  prediction_frame (replicate (length item) u, item, map (predict u) item)
  = user_rows predict item u.
Proof.
  unfold prediction_frame, user_rows.
  induction item as [| i item IH]; simpl; [done |]. by rewrite IH.
Qed.

Lemma cross_body_frame (item : list Z) (st : list Z * list Z * list Q)
  (u : Z) :
  aligned st ->
  aligned (cross_body predict item st u) /\
  prediction_frame (cross_body predict item st u)
  = prediction_frame st ++ user_rows predict item u.
Proof.
  destruct st as [[users items] preds]. intros [H1 H2]. simpl in H1, H2.
  unfold cross_body. rewrite predict_list_replicate. split.
  - split; simpl; rewrite !length_app, ?length_replicate, ?length_map; lia.
  - rewrite <- frame_of_one_user. unfold prediction_frame.
    rewrite (zip_with_app pair) by exact H1.
    rewrite zip_with_app; [done |].
    rewrite length_zip_with_l_eq; [exact H2 | exact H1].
Qed.

Lemma cross_fold_frame (item : list Z) (us : list Z)
  (st : list Z * list Z * list Q) :
  aligned st ->
  prediction_frame (foldl (cross_body predict item) st us)
  = prediction_frame st ++ flat_map (user_rows predict item) us.
Proof.
  revert st. induction us as [| u us IH]; intros st Hst; simpl.
  - by rewrite app_nil_r.
  - destruct (cross_body_frame item st u Hst) as [Hal Hfr].
    rewrite IH by exact Hal. rewrite Hfr. by rewrite <- app_assoc.
Qed.

(** The frame built from the three accumulators holds one row per pair of
    a distinct training user and a distinct training item. *)
Lemma cross_loop_frame (train : list interaction) :
  prediction_frame (cross_loop predict train)
  = flat_map (user_rows predict (unique (itemID <$> train)))
             (unique (userID <$> train)).
Proof.
  unfold cross_loop. rewrite cross_fold_frame; [done |].
  split; reflexivity.
Qed.

Lemma elem_of_cross_rows (items users : list Z) (p : prediction_row) :
  p ∈ flat_map (user_rows predict items) users <->
  p_userID p ∈ users /\ p_itemID p ∈ items /\
  p_prediction p = predict (p_userID p) (p_itemID p).
Proof.
  rewrite list_elem_of_In, in_flat_map. split.
  - intros (u & Hu & Hp). apply list_elem_of_In in Hu, Hp.
    apply list_elem_of_fmap in Hp as (i & -> & Hi). simpl. auto.
  - intros (Hu & Hi & Hp). exists (p_userID p). split.
    + by apply list_elem_of_In.
    + apply list_elem_of_In, list_elem_of_fmap. exists (p_itemID p).
      split; [| done]. destruct p; simpl in *; by subst.
Qed.

Lemma NoDup_cross_keys (items users : list Z) :
  NoDup items -> NoDup users ->
  NoDup (row_key <$> flat_map (user_rows predict items) users).
Proof.
  intros Hi Hu. induction Hu as [| u users Hnin Hu IH]; simpl.
  - constructor.
  - rewrite fmap_app. apply NoDup_app. split; [| split; [| exact IH]].
    + unfold user_rows. rewrite <- list_fmap_compose.
      apply NoDup_fmap_2; [| exact Hi].
      intros i j Hij. by injection Hij.
    + intros k Hk Hk'.
      apply list_elem_of_fmap in Hk as (p & -> & Hp).
      apply list_elem_of_fmap in Hp as (i & -> & _).
      apply list_elem_of_fmap in Hk' as (q & Hq & Hq').
      apply elem_of_cross_rows in Hq' as (Hqu & _).
      unfold row_key in Hq. simpl in Hq. injection Hq as Hq1 _.
      apply Hnin. by rewrite Hq1.
Qed.

(** Rows with a partner in [left] come out of the merge with a rating,
    rows of [right] without a partner come out with a missing rating. *)
Lemma bool_index_app {A : Type} (f : A -> bool) (l1 l2 : list A) :
  bool_index f (l1 ++ l2) = bool_index f l1 ++ bool_index f l2.
Proof. apply List.filter_app. Qed.

Lemma bool_index_all {A : Type} (f : A -> bool) (l : list A) :
  Forall (fun x => f x = true) l -> bool_index f l = l.
Proof.
  unfold bool_index. induction 1 as [| x l Hx _ IH]; [done |].
  cbn [List.filter]. by rewrite Hx, IH.
Qed.

Lemma bool_index_none {A : Type} (f : A -> bool) (l : list A) :
  Forall (fun x => f x = false) l -> bool_index f l = [].
Proof.
  unfold bool_index. induction 1 as [| x l Hx _ IH]; [done |].
  cbn [List.filter]. by rewrite Hx, IH.
Qed.

Lemma merge_left_rated (left : list interaction)
  (right : list prediction_row) :
  bool_index (fun m => isnull (m_rating m))
    (flat_map (left_join_rows right) left) = [].
Proof.
  apply bool_index_none, Forall_forall. intros m Hm.
  apply list_elem_of_In, in_flat_map in Hm as (r & _ & Hm).
  apply list_elem_of_In in Hm. unfold left_join_rows in Hm.
  destruct (bool_index (key_match r) right) as [| p ps].
  - apply list_elem_of_singleton in Hm. by subst.
  - apply list_elem_of_fmap in Hm as (q & -> & _). done.
Qed.

Lemma merge_right_unrated (l : list prediction_row) :
  bool_index (fun m => isnull (m_rating m)) (right_only_row <$> l)
  = right_only_row <$> l.
Proof.
  apply bool_index_all, Forall_forall. intros m Hm.
  apply list_elem_of_fmap in Hm as (q & -> & _). done.
Qed.

(** Ordering the rows by key moves rows but neither adds nor drops one,
    leaves the rows in key order, and keeps rows of equal keys in their
    order. *)
Lemma insert_by_key_Permutation (x : merged_row) (l : list merged_row) :
  insert_by_key x l ≡ₚ x :: l.
Proof.
  induction l as [| y l IH]; [done |]. cbn [insert_by_key].
  destruct (key_le x y); [done |]. rewrite IH. apply Permutation_swap.
Qed.

Lemma sort_by_key_Permutation (l : list merged_row) : sort_by_key l ≡ₚ l.
Proof.
  induction l as [| x l IH]; [done |]. unfold sort_by_key in *.
  cbn [foldr]. by rewrite insert_by_key_Permutation, IH.
Qed.







Lemma bool_index_Permutation {A : Type} (f : A -> bool) (l1 l2 : list A) :
  l1 ≡ₚ l2 -> bool_index f l1 ≡ₚ bool_index f l2.
Proof.
  unfold bool_index. induction 1 as [| x l1 l2 _ IH | x y l | l1 l2 l3 _ IH1 _ IH2].
  - done.
  - cbn [List.filter]. destruct (f x); by rewrite IH.
  - cbn [List.filter]. destruct (f x), (f y); try done. apply Permutation_swap.
  - by rewrite IH1.
Qed.

Lemma all_predictions_rows (train : list interaction) :
  all_predictions predict train
  ≡ₚ unrated_row <$>
       bool_index (unmatched train)
         (flat_map (user_rows predict (unique (itemID <$> train)))
                   (unique (userID <$> train))).
Proof.
  unfold all_predictions, merge_outer. rewrite cross_loop_frame.
  rewrite (bool_index_Permutation _ _ _ (sort_by_key_Permutation _)).
  unfold join_rows.
  rewrite bool_index_app, merge_left_rated, merge_right_unrated.
  simpl. rewrite <- list_fmap_compose. reflexivity.
Qed.

Lemma unmatched_true (train : list interaction) (p : prediction_row) :
  unmatched train p = true <->
  row_key p ∉ ((fun r => (userID r, itemID r)) <$> train).
Proof.
  unfold unmatched. rewrite negb_true_iff, <- not_true_iff_false.
  apply not_iff_compat. rewrite existsb_exists. split.
  - intros (r & Hr & Hm). apply list_elem_of_In in Hr.
    apply list_elem_of_fmap. exists r. split; [| done].
    unfold key_match in Hm. apply andb_true_iff in Hm as [H1 H2].
    apply bool_decide_eq_true in H1, H2. unfold row_key. by rewrite H1, H2.
  - intros (r & Hk & Hr)%list_elem_of_fmap. exists r.
    split; [by apply list_elem_of_In |].
    unfold row_key in Hk. injection Hk as H1 H2. unfold key_match.
    apply andb_true_iff. by rewrite !bool_decide_eq_true.
Qed.

(** C10. The [all_predictions] frame holds exactly the (userID, itemID)
    pairs of the cross product of the training users and the training
    items that are not an interaction of the training frame, each pair
    once, and each with the score the model predicts for it. *)
Theorem all_predictions_unrated_cross_product (train : list interaction) :
  let rated := (fun r => (userID r, itemID r)) <$> train in
  let pairs :=
    (fun a => (a_userID a, a_itemID a)) <$> all_predictions predict train in
  (forall u i, (u, i) ∈ pairs <->
     u ∈ (userID <$> train) /\ i ∈ (itemID <$> train) /\ (u, i) ∉ rated) /\
  NoDup pairs /\
  Forall (fun a => a_prediction a = Some (predict (a_userID a) (a_itemID a)))
         (all_predictions predict train).
Proof.
  intros rated pairs. subst pairs.
  pose proof (all_predictions_rows train) as Hrows.
  set (cross := flat_map (user_rows predict (unique (itemID <$> train)))
                         (unique (userID <$> train))) in Hrows.
  assert (Hkeys : (fun a => (a_userID a, a_itemID a))
                    <$> all_predictions predict train
                  ≡ₚ row_key <$> bool_index (unmatched train) cross).
  { rewrite Hrows, <- list_fmap_compose. done. }
  split; [| split].
  - intros u i. rewrite Hkeys, list_elem_of_fmap. split.
    + intros (p & Hk & Hp). apply elem_of_bool_index in Hp as [Hp Hun].
      apply elem_of_cross_rows in Hp as (Hu & Hi & _).
      rewrite elem_of_unique in Hu, Hi. apply unmatched_true in Hun.
      unfold row_key in Hk, Hun. injection Hk as -> ->. auto.
    + intros (Hu & Hi & Hun). exists (PredictionRow u i (predict u i)).
      split; [done |]. apply elem_of_bool_index. split.
      * apply elem_of_cross_rows. simpl.
        by rewrite !elem_of_unique.
      * by apply unmatched_true.
  - rewrite Hkeys. apply (sublist_NoDup _ (row_key <$> cross)).
    + apply NoDup_cross_keys; apply NoDup_unique.
    + apply fmap_sublist, bool_index_sublist.
  - rewrite Hrows. apply Forall_forall. intros a Ha.
    apply list_elem_of_fmap in Ha as (p & -> & Hp).
    apply elem_of_bool_index in Hp as [Hp _].
    apply elem_of_cross_rows in Hp as (_ & _ & Hp). simpl. by rewrite Hp.
Qed.

End AllPredictions.

(** On a small frame with users 1, 2 and items 10, 11 only the pair (2, 10)
    has no training interaction. *)
Example all_predictions_small :
  all_predictions (fun u i => inject_Z (u + i)) small_train
  = [AllRow 2 10 None (Some (inject_Z 12))].
Proof. vm_compute. reflexivity. Qed.

(** Membership in the filtered test frame. *)
Lemma elem_of_filter_test (train test : list interaction) (r : interaction) :
  r ∈ filter_test train test <->
  r ∈ test /\ userID r ∈ (userID <$> train) /\ itemID r ∈ (itemID <$> train).
Proof.
  unfold filter_test. rewrite !elem_of_bool_index, !isin_unique_true. tauto.
Qed.

(** On a small frame: the row of the unseen item 12 and the row of the
    unseen user 3 are dropped. *)
Example filter_test_small :
  filter_test small_train small_test = [Interaction 2 10 5 45].
Proof. reflexivity. Qed.

(** C9. After the filtering cell, every row of the test frame has a [userID]
    that occurs in the [userID] column of the training frame and an [itemID]
    that occurs in its [itemID] column. *)
Theorem filter_test_ids_in_train (train test : list interaction) :
  Forall (fun r => userID r ∈ (userID <$> train) /\
                   itemID r ∈ (itemID <$> train))
         (filter_test train test).
Proof.
  apply Forall_forall. intros r Hr.
  apply elem_of_filter_test in Hr. tauto.
Qed.

(** *** Chronological split and the leave-one-out test frame *)

#[local] Instance chrono_le_trans : Transitive chrono_le.
Proof. intros a b c. unfold chrono_le. lia. Qed.

#[local] Instance chrono_le_total : Total chrono_le.
Proof. intros a b. unfold chrono_le. lia. Qed.

Lemma StronglySorted_sublist {A : Type} (R : relation A) (l1 l2 : list A) :
  l1 `sublist_of` l2 -> StronglySorted R l2 -> StronglySorted R l1.
Proof.
  induction 1 as [| x l1 l2 Hsub IH | x l1 l2 Hsub IH]; intros Hs.
  - constructor.
  - apply StronglySorted_inv in Hs as [Hs Hall]. constructor; [by apply IH |].
    apply Forall_forall. intros y Hy.
    rewrite Forall_forall in Hall. apply Hall.
    by apply (elem_of_sublist l1).
  - apply StronglySorted_inv in Hs as [Hs _]. by apply IH.
Qed.

Lemma cumcount_go_rows (seen : list Z) (df : list interaction) :
  snd <$> cumcount_go seen df = df.
Proof.
  revert seen. induction df as [| r df IH]; intros seen; simpl; [done |].
  by rewrite IH.
Qed.

Section ChronoFacts.

Variable cut : nat -> nat.

(** Both partitions keep the rows in the order of the sorted frame. *)
Lemma chrono_split_sublists (df : list interaction) :
  (python_chrono_split cut df).1 `sublist_of` merge_sort chrono_le df /\
  (python_chrono_split cut df).2 `sublist_of` merge_sort chrono_le df.
Proof.
  assert (H : forall f : nat * interaction -> bool,
    snd <$> bool_index f (cumcount_go [] (merge_sort chrono_le df))
    `sublist_of` merge_sort chrono_le df).
  { intros f.
    rewrite <- (cumcount_go_rows [] (merge_sort chrono_le df)) at 2.
    apply fmap_sublist, bool_index_sublist. }
  unfold python_chrono_split. simpl. split; apply H.
Qed.

Lemma notebook_test_sorted (df : list interaction) :
  StronglySorted chrono_le (notebook_test cut df).
Proof.
  apply (StronglySorted_sublist _ _ (merge_sort chrono_le df)).
  - unfold notebook_test, filter_test.
    etransitivity; [apply bool_index_sublist |].
    etransitivity; [apply bool_index_sublist |].
    apply chrono_split_sublists.
  - apply StronglySorted_merge_sort; apply _.
Qed.

End ChronoFacts.

Lemma elem_of_group_of (u : Z) (df : list interaction) (r : interaction) :
  r ∈ group_of u df <-> r ∈ df /\ userID r = u.
Proof.
  unfold group_of. rewrite elem_of_bool_index, bool_decide_eq_true. done.
Qed.

(** The row [last()] returns for a group is the last row of the group. *)
Lemma last_row_is_last (u : Z) (g : list interaction) (r : interaction) :
  last g = Some r -> userID r = u -> last_row u g = Some r.
Proof.
  intros Hl Hu. unfold last_row. rewrite !fmap_last, Hl. simpl.
  destruct r; simpl in *; by subst.
Qed.

Lemma last_row_Some (u : Z) (g : list interaction) (r : interaction) :
  (forall x, x ∈ g -> userID x = u) ->
  last_row u g = Some r -> last g = Some r.
Proof.
  intros Hg. destruct (last g) as [x |] eqn:Hl.
  - rewrite (last_row_is_last u g x Hl); [done |].
    apply Hg, last_Some_elem_of, Hl.
  - unfold last_row. rewrite !fmap_last, Hl. done.
Qed.

Lemma group_last_exists (u : Z) (df : list interaction) :
  u ∈ (userID <$> df) ->
  exists r, last (group_of u df) = Some r /\ userID r = u.
Proof.
  intros (x & -> & Hx)%list_elem_of_fmap.
  destruct (last (group_of (userID x) df)) as [r |] eqn:Hl.
  - exists r. split; [done |].
    apply last_Some_elem_of, elem_of_group_of in Hl. tauto.
  - apply last_None in Hl.
    assert (x ∈ group_of (userID x) df) as Hin by by apply elem_of_group_of.
    rewrite Hl in Hin. inversion Hin.
Qed.

Lemma fmap_omap_keys {A B : Type} (f : A -> option B) (g : B -> A)
  (l : list A) :
  (forall x, x ∈ l -> exists y, f x = Some y /\ g y = x) ->
  g <$> omap f l = l.
Proof.
  induction l as [| x l IH]; intros H; [done |].
  destruct (H x) as (y & Hy & Hg); [by left |].
  cbn [omap list_omap]. rewrite Hy. rewrite fmap_cons, Hg. f_equal.
  apply IH. intros z Hz. apply H. by right.
Qed.

(** One row per distinct user, users in increasing order. *)
Lemma groupby_last_users (df : list interaction) :
  userID <$> groupby_last df = merge_sort Z.le (unique (userID <$> df)).
Proof.
  unfold groupby_last. apply fmap_omap_keys. intros u Hu.
  rewrite merge_sort_Permutation, elem_of_unique in Hu.
  destruct (group_last_exists u df Hu) as (r & Hl & Hr).
  exists r. split; [| done]. by apply last_row_is_last.
Qed.

Lemma elem_of_groupby_last (df : list interaction) (r : interaction) :
  r ∈ groupby_last df <->
  userID r ∈ (userID <$> df) /\ last (group_of (userID r) df) = Some r.
Proof.
  unfold groupby_last. rewrite list_elem_of_omap. split.
  - intros (u & Hu & Hr).
    rewrite merge_sort_Permutation, elem_of_unique in Hu.
    destruct (group_last_exists u df Hu) as (x & Hl & Hx).
    rewrite (last_row_is_last u _ x Hl Hx) in Hr. injection Hr as <-.
    by rewrite Hx.
  - intros [Hu Hl]. exists (userID r). split.
    + by rewrite merge_sort_Permutation, elem_of_unique.
    + by apply last_row_is_last.
Qed.

(** In a frame ordered by (userID, timestamp) the last row of a user's group
    carries the user's largest timestamp. *)
Lemma last_of_group_most_recent (df : list interaction) (u : Z)
  (r : interaction) :
  StronglySorted chrono_le df ->
  last (group_of u df) = Some r ->
  forall r', r' ∈ df -> userID r' = u -> (timestamp r' <= timestamp r)%Z.
Proof.
  intros Hs Hl r' Hr' Hu.
  assert (Hg : StronglySorted chrono_le (group_of u df)).
  { apply (StronglySorted_sublist _ _ df); [apply bool_index_sublist | done]. }
  assert (Hru : userID r = u).
  { apply last_Some_elem_of, elem_of_group_of in Hl. tauto. }
  assert (Hin : r' ∈ group_of u df) by by apply elem_of_group_of.
  apply last_Some in Hl as [l' Hl']. rewrite Hl' in Hg, Hin.
  apply elem_of_app in Hin as [Hin | Hin].
  - apply StronglySorted_app in Hg as (Hle & _ & _).
    destruct (Hle r' r Hin) as [Hlt | [_ Ht]]; [by left | lia | done].
  - apply list_elem_of_singleton in Hin. subst r'. lia.
Qed.

Lemma batch_output_test_batch (predict : Z -> Z -> Q)
  (sample_negatives : Z -> list Z) (r : interaction) :
  batch_output predict (test_batch sample_negatives r)
  = map (predict (userID r)) (itemID r :: sample_negatives (userID r)).
Proof.
  unfold batch_output, test_batch. cbn [user_input item_input].
  apply (predict_list_replicate predict (userID r)
           (itemID r :: sample_negatives (userID r))).
Qed.

Lemma count_ge_first_map {A : Type} (f : A -> Q) (x : A) (l : list A) :
  count_ge_first (map f (x :: l))
  = length (filter (fun y => Qle (f x) (f y)) (x :: l)).
Proof.
  unfold count_ge_first. cbn [map].
  change (f x :: map f l) with (map f (x :: l)).
  generalize (x :: l). intros k.
  induction k as [| y k IH]; [done |].
  cbn [map]. rewrite !filter_cons.
  destruct (decide (f x <= f y)%Q); simpl; by rewrite IH.
Qed.

(** The split, filtered and grouped frames on the small example: user 1 has
    8 rows (6 for training), user 2 has 8 rows (6 for training); the test
    rows of each user are her two latest ones and [last()] keeps the later
    one. *)
Example leave_one_out_sample :
  groupby_last (notebook_test cut_75 sample_frame)
  = [Interaction 1 11 4 80; Interaction 2 10 1 99].
Proof. vm_compute. reflexivity. Qed.

(** C3. The leave-one-out test frame has exactly one row for every user of
    the split and filtered test partition and no other row; that row is a
    row of the test partition whose timestamp is the largest among the
    user's test rows; and the test loader turns every such row into one
    batch in which the positive item comes first and is ranked against the
    sampled negatives. *)
Theorem leave_one_out_test_most_recent (cut : nat -> nat)
  (predict : Z -> Z -> Q) (sample_negatives : Z -> list Z)
  (df : list interaction) :
  let test := notebook_test cut df in
  let loo := groupby_last test in
  NoDup (userID <$> loo) /\
  (forall u, u ∈ (userID <$> loo) <-> u ∈ (userID <$> test)) /\
  (forall r, r ∈ loo ->
     r ∈ test /\
     forall r', r' ∈ test -> userID r' = userID r ->
                (timestamp r' <= timestamp r)%Z) /\
  Forall2
    (fun r b =>
       item_input b = itemID r :: sample_negatives (userID r) /\
       labels b = 1%Z :: replicate (length (sample_negatives (userID r))) 0%Z /\
       rank (batch_output predict b) =
         Some (length (filter
                 (fun i => Qle (predict (userID r) (itemID r))
                               (predict (userID r) i))
                 (itemID r :: sample_negatives (userID r)))))
    loo (test_loader sample_negatives loo).
Proof.
  intros test loo. split; [| split; [| split]].
  - subst loo. rewrite groupby_last_users.
    rewrite merge_sort_Permutation. apply NoDup_unique.
  - intros u. subst loo. rewrite groupby_last_users.
    by rewrite merge_sort_Permutation, elem_of_unique.
  - intros r Hr. apply elem_of_groupby_last in Hr as [_ Hl]. split.
    + apply last_Some_elem_of, elem_of_group_of in Hl. tauto.
    + intros r' Hr' Hu.
      apply (last_of_group_most_recent test (userID r) r); try done.
      apply notebook_test_sorted.
  - unfold test_loader. apply Forall2_fmap_r, Forall_Forall2_diag, Forall_forall.
    intros r _. split; [done |]. split; [done |].
    rewrite batch_output_test_batch. cbn [map]. rewrite rank_count.
    f_equal.
    apply (count_ge_first_map (predict (userID r)) (itemID r)).
Qed.

End NCFFacts.

(** ** Further properties of the NCF notebook *)

Section NCFMore.

Import NCF.

(** *** The rank and the recorded values *)

Lemma rank_cons (o0 : Q) (negatives : list Q) :
  rank (o0 :: negatives)
  = Some (S (length (filter (fun o => Qle o0 o) negatives))).
Proof.
  rewrite rank_count. unfold count_ge_first. rewrite filter_cons.
  destruct (decide (o0 <= o0)%Q) as [_ | Hn]; [done |].
  exfalso. apply Hn, Qle_refl.
Qed.

(** Inside the top [k] the recorded value lies between [1 / ln (k + 1)]
    and [1 / ln 2]. *)
Lemma hit_value_bounds (r k : nat) :
  1 <= r <= k ->
  (1 / ln (INR k + 1) <= 1 / ln (INR r + 1) <= 1 / ln 2)%R.
Proof.
  intros [Hr Hk].
  assert (H1 : (1 <= INR r)%R) by (change 1%R with (INR 1); by apply le_INR).
  assert (H2 : (INR r <= INR k)%R) by by apply le_INR.
  pose proof ln_2_pos as Hl2.
  assert (Hlo : (ln 2 <= ln (INR r + 1))%R).
  { destruct (Req_dec (INR r) 1) as [-> | Hne1].
    - replace (1 + 1)%R with 2%R by lra. lra.
    - left. apply ln_increasing; lra. }
  assert (Hhi : (ln (INR r + 1) <= ln (INR k + 1))%R).
  { destruct (Req_dec (INR r) (INR k)) as [-> | Hne1]; [lra |].
    left. apply ln_increasing; lra. }
  unfold Rdiv. rewrite !Rmult_1_l. split; apply Rinv_le_contravar; lra.
Qed.

(** X2. The rank does not depend on the order of the negatives. *)
Theorem rank_permutation_invariant (o0 : Q) (negatives negatives' : list Q) :
  negatives ≡ₚ negatives' ->
  rank (o0 :: negatives) = rank (o0 :: negatives').
Proof.
  intros Hp. rewrite !rank_cons. by rewrite Hp.
Qed.

Lemma rank_permutation_invariant_witness :
  rank [(1 # 2)%Q; (1 # 3)%Q; (2 # 3)%Q] = rank [(1 # 2)%Q; (2 # 3)%Q; (1 # 3)%Q].
Proof.
  apply (rank_permutation_invariant (1 # 2)%Q [(1 # 3)%Q; (2 # 3)%Q]
           [(2 # 3)%Q; (1 # 3)%Q]).
  apply perm_swap.
Defined.



(** *** The loop on arrays of floats *)

Lemma sum_bools_count {A : Type} (f : A -> bool) (l : list A) :
  sum_bools (map f l) = length (List.filter f l).
Proof.
  unfold sum_bools. rewrite sum_bools_from. cbn [Nat.add].
  induction l as [| x l IH]; [done |]. cbn [map List.filter].
  destruct (f x); cbn [length]; by rewrite IH.
Qed.

Lemma score_ge_refl (o : score) : o <> SNaN -> score_ge o o = true.
Proof.
  destruct o as [| | q |]; [done | done | | done]. intros _.
  apply Qle_bool_iff, Qle_refl.
Qed.

Lemma score_ge_nan (o : score) : score_ge o SNaN = false.
Proof. by destruct o. Qed.

Lemma nan_first_cons (o0 : score) (l : list score) :
  nan_first (o0 :: l) = true <-> o0 = SNaN.
Proof. by destruct o0. Qed.

(** On an array of two or more scores the rank is the number of scores at
    least as large as the first one; a shorter array raises. *)
Lemma cell_rank_squeeze (o0 o1 : score) (l : list score) :
  cell_rank (np_squeeze (o0 :: o1 :: l))
  = Some (count_ge_head (o0 :: o1 :: l)).
Proof.
  unfold cell_rank, np_squeeze, cell_ge_first, count_ge_head.
  cbn [fmap option_fmap option_map]. f_equal. apply sum_bools_count.
Qed.

Lemma cell_rank_short (output : list score) :
  length output < 2 -> cell_rank (np_squeeze output) = None.
Proof. destruct output as [| x [| y l]]; [done | done | simpl; lia]. Qed.

Lemma count_ge_head_nan (output : list score) :
  nan_first output = true -> count_ge_head output = 0.
Proof.
  destruct output as [| o0 l]; [done |]. intros ->%nan_first_cons.
  unfold count_ge_head. generalize (SNaN :: l). intros l'.
  induction l' as [| x l' IH]; [done |]. cbn [List.filter].
  by rewrite score_ge_nan.
Qed.

Lemma count_ge_head_pos (output : list score) :
  output <> [] -> nan_first output = false -> 1 <= count_ge_head output.
Proof.
  destruct output as [| o0 l]; [done |]. intros _ Hn.
  unfold count_ge_head. cbn [List.filter]. rewrite score_ge_refl.
  - simpl. lia.
  - intros ->. done.
Qed.

Lemma np_reciprocal_log_pos (r : nat) :
  1 <= r -> np_reciprocal (np_log (INR r + 1)) = XFin (1 / ln (INR r + 1)).
Proof.
  intros Hr. unfold np_reciprocal, np_log.
  destruct (Req_dec_T (ln (INR r + 1)) 0) as [E | _]; [| done].
  assert (H1 : (1 <= INR r)%R) by (change 1%R with (INR 1); by apply le_INR).
  assert (Hln : (0 < ln (INR r + 1))%R).
  { rewrite <- ln_1. apply ln_increasing; lra. }
  lra.
Qed.

Lemma np_reciprocal_log_0 : np_reciprocal (np_log (INR 0 + 1)) = XInf.
Proof.
  unfold np_reciprocal, np_log. cbn [INR].
  replace (0 + 1)%R with 1%R by lra. rewrite ln_1.
  by destruct (Req_dec_T 0 0).
Qed.

(** What one iteration appends. *)
Lemma cell_body_long (k : nat) (acc : cell_acc) (o : list score) :
  2 <= length o ->
  cell_body k acc o =
  Some (if count_ge_head o <=? k
        then CellAcc (c_ndcgs acc
                      ++ [np_reciprocal (np_log (INR (count_ge_head o) + 1))])
                     (c_hit_ratio acc ++ [1%Z])
        else CellAcc (c_ndcgs acc ++ [XFin 0]) (c_hit_ratio acc ++ [0%Z])).
Proof.
  destruct o as [| o0 [| o1 l]]; [simpl; lia | simpl; lia |]. intros _.
  unfold cell_body. rewrite cell_rank_squeeze.
  by destruct (count_ge_head (o0 :: o1 :: l) <=? k).
Qed.

Lemma cell_body_short (k : nat) (acc : cell_acc) (o : list score) :
  length o < 2 -> cell_body k acc o = None.
Proof. intros Ho. unfold cell_body. by rewrite cell_rank_short. Qed.

(** The loop on arrays of two or more scores does not raise, and appends
    one entry per array to each accumulator. *)
Lemma cell_loop_appends (k : nat) (outputs : list (list score))
  (acc : cell_acc) :
  Forall (fun o => 2 <= length o) outputs ->
  exists acc', cell_loop k acc outputs = Some acc' /\
    c_hit_ratio acc' = c_hit_ratio acc ++
      map (fun o => if count_ge_head o <=? k then 1%Z else 0%Z) outputs /\
    c_ndcgs acc' = c_ndcgs acc ++
      map (fun o => if count_ge_head o <=? k
                    then np_reciprocal (np_log (INR (count_ge_head o) + 1))
                    else XFin 0)
          outputs.
Proof.
  intros Hlen. revert acc.
  induction Hlen as [| o outputs Ho _ IH]; intros acc.
  - exists acc. cbn [cell_loop map]. by rewrite !app_nil_r.
  - cbn [cell_loop map]. rewrite (cell_body_long k acc o Ho).
    destruct (IH (if count_ge_head o <=? k
        then CellAcc (c_ndcgs acc
                      ++ [np_reciprocal (np_log (INR (count_ge_head o) + 1))])
                     (c_hit_ratio acc ++ [1%Z])
        else CellAcc (c_ndcgs acc ++ [XFin 0]) (c_hit_ratio acc ++ [0%Z])))
      as (acc' & Hrun & Hh & Hn).
    exists acc'. split; [exact Hrun |]. rewrite Hh, Hn.
    destruct (count_ge_head o <=? k); cbn [c_hit_ratio c_ndcgs];
      by rewrite <- !app_assoc.
Qed.

(** On arrays of two or more finite scores the loop on floats is the loop
    of the first description. *)
Lemma count_ge_head_float (o : list Q) :
  count_ge_head (float_array o) = count_ge_first o.
Proof.
  destruct o as [| o0 l]; [done |].
  unfold count_ge_head, count_ge_first, float_array. rewrite fmap_cons.
  change (SFin o0 :: (SFin <$> l)) with (SFin <$> (o0 :: l)).
  generalize (o0 :: l). intros l'. induction l' as [| x l' IH]; [done |].
  rewrite fmap_cons, filter_cons. cbn [List.filter score_ge].
  destruct (decide (o0 <= x)%Q) as [Hle | Hnle].
  - apply Qle_bool_iff in Hle. rewrite Hle. cbn [length]. by rewrite IH.
  - destruct (Qle_bool o0 x) eqn:E; [| done].
    apply Qle_bool_iff in E. contradiction.
Qed.

Lemma cell_body_finite (k : nat) (acc : eval_acc) (o : list Q) :
  2 <= length o ->
  cell_body k (float_acc acc) (float_array o) = float_acc <$> eval_body k acc o.
Proof.
  intros Ho.
  rewrite cell_body_long by (unfold float_array; by rewrite length_fmap).
  rewrite count_ge_head_float.
  destruct o as [| o0 l]; [simpl in Ho; lia |].
  rewrite eval_body_cons. cbv zeta.
  pose proof (count_ge_first_pos o0 l) as Hpos.
  destruct (count_ge_first (o0 :: l) <=? k);
    cbn [fmap option_fmap option_map]; f_equal;
    unfold float_acc; cbn [ndcgs hit_ratio c_ndcgs c_hit_ratio];
    rewrite fmap_app; [| done].
  by rewrite np_reciprocal_log_pos.
Qed.

Lemma cell_loop_finite (k : nat) (outputs : list (list Q)) (acc : eval_acc) :
  Forall (fun o => 2 <= length o) outputs ->
  cell_loop k (float_acc acc) (float_array <$> outputs)
  = float_acc <$> eval_loop k acc outputs.
Proof.
  intros Hlen. revert acc.
  induction Hlen as [| o outputs Ho _ IH]; intros acc; [done |].
  rewrite fmap_cons. cbn [cell_loop eval_loop].
  rewrite (cell_body_finite k acc o Ho).
  destruct (eval_body k acc o) as [acc' |]; [| done].
  cbn [fmap option_fmap option_map]. apply IH.
Qed.

(** X1. On the squeezed array the rank is read off the first (positive)
    score: indexing raises when the array holds that score alone; the rank
    is 0 when the positive score is [nan]; otherwise it is one plus the
    number of the other scores that are at least as large as the positive
    one (a tie counts against the positive item, a [nan] score never
    counts), hence between 1 and the length of the array. *)
Theorem rank_one_plus_negatives (o0 : score) (negatives : list score) :
  cell_rank (np_squeeze (o0 :: negatives)) =
    match negatives, o0 with
    | [], _ => None
    | _ :: _, SNaN => Some 0
    | _ :: _, _ =>
        Some (S (length (List.filter (fun o => score_ge o o0) negatives)))
    end /\
  length (List.filter (fun o => score_ge o o0) negatives) <= length negatives.
Proof.
  split; [| apply filter_length_le].
  destruct negatives as [| o1 l]; [done |]. rewrite cell_rank_squeeze.
  destruct (nan_first (o0 :: o1 :: l)) eqn:Hnan.
  - rewrite count_ge_head_nan by done. apply nan_first_cons in Hnan.
    by subst.
  - unfold count_ge_head. cbn [List.filter].
    rewrite score_ge_refl by (by intros ->). by destruct o0.
Qed.

(** The ranks of the two sample arrays: 0 for the [nan] positive score, 3
    for the positive score tied with one negative and below [inf]. *)
Example cell_rank_samples :
  cell_rank (np_squeeze nan_first_scores) = Some 0 /\
  cell_rank (np_squeeze tie_scores) = Some 3 /\
  cell_rank (np_squeeze [SFin 1]) = None /\
  cell_rank (np_squeeze []) = None.
Proof. vm_compute. by repeat split. Qed.

(** X3. The loop raises exactly when one of the score arrays holds fewer
    than two scores: indexing [output[0]] fails on the empty array and on
    the 0-d array [np.squeeze] makes of a single score. *)
Theorem cell_loop_raises_iff_short_array (k : nat) (acc : cell_acc)
  (outputs : list (list score)) :
  cell_loop k acc outputs = None <-> Exists (fun o => length o < 2) outputs.
Proof.
  revert acc. induction outputs as [| o outputs IH]; intros acc.
  - cbn [cell_loop]. split; [done | by inversion 1].
  - cbn [cell_loop]. rewrite Exists_cons.
    destruct (decide (length o < 2)) as [Hs | Hl].
    + rewrite cell_body_short by done. split; [by left | done].
    + rewrite cell_body_long by lia. rewrite IH.
      split; [by right | by intros [? | ?]].
Qed.

Lemma zip_map_map {A B C : Type} (f : A -> B) (g : A -> C) (l : list A) :
  zip (map f l) (map g l) = map (fun x => (f x, g x)) l.
Proof. induction l as [| x l IH]; [done |]. cbn [map zip_with]. by rewrite IH. Qed.

(** X4. After the loop over arrays of two or more scores both accumulators
    hold one entry per array.  For an array whose positive score is [nan]
    the entries are 1 and [inf]; otherwise the entries are 0 and 0 when
    more than [k] scores are at least as large as the positive one, and 1
    and a value between [1 / ln (k + 1)] and [1 / ln 2] when at most [k]
    are. *)
Theorem cell_loop_entries_aligned (k : nat) (outputs : list (list score)) :
  Forall (fun o => 2 <= length o) outputs ->
  exists acc,
    cell_loop k (CellAcc [] []) outputs = Some acc /\
    length (c_ndcgs acc) = length outputs /\
    length (c_hit_ratio acc) = length outputs /\
    Forall2 (fun o (vh : xreal * Z) =>
               (nan_first o = true /\ vh = (XInf, 1%Z)) \/
               (nan_first o = false /\ k < count_ge_head o /\
                vh = (XFin 0, 0%Z)) \/
               (nan_first o = false /\ 1 <= count_ge_head o <= k /\
                exists v, vh = (XFin v, 1%Z) /\
                          (1 / ln (INR k + 1) <= v <= 1 / ln 2)%R))
            outputs (zip (c_ndcgs acc) (c_hit_ratio acc)).
Proof.
  intros Hlen.
  destruct (cell_loop_appends k outputs (CellAcc [] []) Hlen)
    as (acc & Hrun & Hh & Hn).
  cbn [c_hit_ratio c_ndcgs app] in Hh, Hn. exists acc.
  split; [exact Hrun |]. rewrite Hh, Hn, !length_map.
  split; [done |]. split; [done |]. rewrite zip_map_map.
  apply Forall2_fmap_r, Forall_Forall2_diag.
  eapply Forall_impl; [exact Hlen |]. intros o Ho. cbv beta.
  destruct (nan_first o) eqn:Hnan.
  - left. split; [done |]. rewrite (count_ge_head_nan o Hnan).
    cbn [Nat.leb]. by rewrite np_reciprocal_log_0.
  - right. assert (Hne : o <> []) by (intros ->; simpl in Ho; lia).
    pose proof (count_ge_head_pos o Hne Hnan) as Hpos.
    destruct (count_ge_head o <=? k) eqn:E.
    + apply Nat.leb_le in E. right. split; [done |]. split; [lia |].
      rewrite np_reciprocal_log_pos by done. eexists. split; [done |].
      by apply hit_value_bounds.
    + apply Nat.leb_gt in E. left. by repeat split.
Qed.

(** The theorem above at a test set of three arrays, one of them with a
    [nan] positive score. *)
Lemma cell_loop_entries_aligned_witness :
  exists acc,
    cell_loop TOP_K (CellAcc [] [])
      [tie_scores; nan_first_scores; float_array worst_first_scores]
    = Some acc /\
    length (c_ndcgs acc) = 3 /\ length (c_hit_ratio acc) = 3.
Proof.
  destruct (cell_loop_entries_aligned TOP_K
              [tie_scores; nan_first_scores; float_array worst_first_scores])
    as (acc & Hrun & Hn & Hh & _).
  - repeat constructor.
  - exists acc. split; [exact Hrun |]. split; [exact Hn | exact Hh].
Defined.

(** *** The overall metrics *)

Lemma Q2R_inject_Z (z : Z) : Q2R (inject_Z z) = IZR z.
Proof. unfold Q2R. simpl. rewrite Rinv_1. apply Rmult_1_r. Qed.

(** The loop on arrays of two or more scores: HR is the number of hits
    over the number of arrays. *)
Lemma cell_hr_hits_over_lists (k : nat) (outputs : list (list score)) :
  outputs <> [] -> Forall (fun o => 2 <= length o) outputs ->
  exists acc,
    cell_loop k (CellAcc [] []) outputs = Some acc /\
    c_hit_ratio acc
    = map (fun o => if count_ge_head o <=? k then 1%Z else 0%Z) outputs /\
    c_ndcgs acc
    = map (fun o => if count_ge_head o <=? k
                    then np_reciprocal (np_log (INR (count_ge_head o) + 1))
                    else XFin 0)
          outputs /\
    cell_hr acc =
      Some (Qdiv
        (inject_Z (Z.of_nat (length
           (filter (fun o => count_ge_head o <= k) outputs))))
        (inject_Z (Z.of_nat (length outputs)))).
Proof.
  intros Hnil Hlen.
  destruct (cell_loop_appends k outputs (CellAcc [] []) Hlen)
    as (acc & Hrun & Hh & Hn).
  cbn [c_hit_ratio c_ndcgs app] in Hh, Hn. exists acc.
  repeat split; try done.
  unfold cell_hr, np_mean. rewrite Hh.
  destruct outputs as [| o outputs]; [done |].
  rewrite length_map.
  rewrite (sum_Z_indicators (fun o => count_ge_head o <= k)); [done |].
  intros x. apply Nat.leb_le.
Qed.

(** X6. On a non-empty test set of arrays of two or more scores the
    overall HR lies between 0 and 1. *)
Theorem cell_hr_between_0_and_1 (k : nat) (outputs : list (list score)) :
  outputs <> [] -> Forall (fun o => 2 <= length o) outputs ->
  exists acc hr,
    cell_loop k (CellAcc [] []) outputs = Some acc /\
    cell_hr acc = Some hr /\ (0 <= hr)%Q /\ (hr <= 1)%Q.
Proof.
  intros Hnil Hlen.
  destruct (cell_hr_hits_over_lists k outputs Hnil Hlen)
    as (acc & Hrun & _ & _ & Hhr).
  exists acc. eexists. split; [exact Hrun |]. split; [exact Hhr |].
  pose proof (length_filter (fun o => count_ge_head o <= k) outputs) as Hc.
  assert (Hn : 0 < length outputs) by (destruct outputs; [done | simpl; lia]).
  assert (Hpos : (0 < inject_Z (Z.of_nat (length outputs)))%Q).
  { change 0%Q with (inject_Z 0). rewrite <- Zlt_Qlt. lia. }
  split.
  - apply Qle_shift_div_l; [exact Hpos |]. rewrite Qmult_0_l.
    change 0%Q with (inject_Z 0). rewrite <- Zle_Qle. lia.
  - apply Qle_shift_div_r; [exact Hpos |]. rewrite Qmult_1_l.
    rewrite <- Zle_Qle. lia.
Qed.

Lemma cell_hr_between_0_and_1_witness :
  exists acc hr,
    cell_loop TOP_K (CellAcc [] []) [tie_scores; nan_first_scores] = Some acc /\
    cell_hr acc = Some hr /\ (0 <= hr)%Q /\ (hr <= 1)%Q.
Proof.
  apply (cell_hr_between_0_and_1 TOP_K [tie_scores; nan_first_scores]).
  - discriminate.
  - repeat constructor.
Defined.

(** X7. The overall HR does not depend on the order in which the test
    arrays are produced. *)
Theorem cell_hr_order_independent (k : nat)
  (outputs outputs' : list (list score)) :
  outputs ≡ₚ outputs' ->
  outputs <> [] -> Forall (fun o => 2 <= length o) outputs ->
  exists acc acc',
    cell_loop k (CellAcc [] []) outputs = Some acc /\
    cell_loop k (CellAcc [] []) outputs' = Some acc' /\
    cell_hr acc = cell_hr acc'.
Proof.
  intros Hp Hnil Hlen.
  assert (Hnil' : outputs' <> []).
  { intros ->. by apply Permutation_nil_r in Hp. }
  assert (Hlen' : Forall (fun o => 2 <= length o) outputs') by by rewrite <- Hp.
  destruct (cell_hr_hits_over_lists k outputs Hnil Hlen)
    as (acc & Hrun & _ & _ & Hhr).
  destruct (cell_hr_hits_over_lists k outputs' Hnil' Hlen')
    as (acc' & Hrun' & _ & _ & Hhr').
  exists acc, acc'. split; [exact Hrun |]. split; [exact Hrun' |].
  rewrite Hhr, Hhr'. by rewrite Hp.
Qed.

Lemma cell_hr_order_independent_witness :
  exists acc acc',
    cell_loop TOP_K (CellAcc [] []) [tie_scores; nan_first_scores] = Some acc /\
    cell_loop TOP_K (CellAcc [] []) [nan_first_scores; tie_scores] = Some acc' /\
    cell_hr acc = cell_hr acc'.
Proof.
  apply (cell_hr_order_independent TOP_K).
  - apply perm_swap.
  - discriminate.
  - repeat constructor.
Defined.

Lemma sum_cell_ndcg_between (k : nat) (outputs : list (list score)) :
  Forall (fun o => o <> [] /\ nan_first o = false) outputs ->
  let hits :=
    sum_Z (map (fun o => if count_ge_head o <=? k then 1%Z else 0%Z)
               outputs) in
  let total :=
    sum_R (map (fun o =>
                  finite_part
                    (if count_ge_head o <=? k
                     then np_reciprocal (np_log (INR (count_ge_head o) + 1))
                     else XFin 0)) outputs) in
  (IZR hits * (1 / ln (INR k + 1)) <= total <= IZR hits * (1 / ln 2))%R.
Proof.
  induction 1 as [| o outputs [Hne Hnan] _ IH]; cbv zeta in *.
  - simpl. lra.
  - cbn [map]. unfold sum_Z, sum_R in *. cbn [foldr].
    rewrite plus_IZR. pose proof (count_ge_head_pos o Hne Hnan) as Hpos.
    destruct (count_ge_head o <=? k) eqn:E.
    + apply Nat.leb_le in E. rewrite np_reciprocal_log_pos by done.
      cbn [finite_part].
      destruct (hit_value_bounds _ k (conj Hpos E)) as [Hlo Hhi]. lra.
    + cbn [finite_part]. lra.
Qed.

Lemma existsb_is_inf_entries (k : nat) (outputs : list (list score)) :
  Forall (fun o => 2 <= length o) outputs ->
  existsb is_inf
    (map (fun o => if count_ge_head o <=? k
                   then np_reciprocal (np_log (INR (count_ge_head o) + 1))
                   else XFin 0) outputs)
  = existsb nan_first outputs.
Proof.
  induction 1 as [| o outputs Ho _ IH]; [done |].
  cbn [map existsb]. rewrite IH. f_equal.
  destruct (nan_first o) eqn:Hnan.
  - rewrite (count_ge_head_nan o Hnan). cbn [Nat.leb].
    by rewrite np_reciprocal_log_0.
  - assert (Hne : o <> []) by (intros ->; simpl in Ho; lia).
    pose proof (count_ge_head_pos o Hne Hnan) as Hpos.
    destruct (count_ge_head o <=? k); [| done].
    by rewrite np_reciprocal_log_pos.
Qed.

(** X8. The two printed metrics are tied.  On a non-empty test set of
    arrays of two or more scores the overall NDCG is [inf] when some
    positive score is [nan]; otherwise it is finite and lies between
    HR / ln (k + 1) and HR / ln 2. *)
Theorem cell_ndcg_between_hr_bounds (k : nat) (outputs : list (list score)) :
  outputs <> [] -> Forall (fun o => 2 <= length o) outputs ->
  exists acc hr v,
    cell_loop k (CellAcc [] []) outputs = Some acc /\
    cell_hr acc = Some hr /\
    cell_ndcg acc
    = Some (if existsb nan_first outputs then XInf else XFin v) /\
    (existsb nan_first outputs = false ->
     (Q2R hr * (1 / ln (INR k + 1)) <= v <= Q2R hr * (1 / ln 2))%R).
Proof.
  intros Hnil Hlen.
  destruct (cell_loop_appends k outputs (CellAcc [] []) Hlen)
    as (acc & Hrun & Hh & Hn).
  cbn [c_hit_ratio c_ndcgs app] in Hh, Hn.
  assert (Hpos : 0 < length outputs) by (destruct outputs; [done | simpl; lia]).
  assert (Hlh : length (c_hit_ratio acc) = length outputs)
    by (by rewrite Hh, length_map).
  assert (Hln : length (c_ndcgs acc) = length outputs)
    by (by rewrite Hn, length_map).
  exists acc. unfold cell_ndcg, cell_hr, np_mean_x, np_mean.
  destruct (c_ndcgs acc) as [| v0 vs] eqn:Hv; [simpl in Hln; lia |].
  destruct (c_hit_ratio acc) as [| h0 hs] eqn:Hhs; [simpl in Hlh; lia |].
  do 2 eexists. split; [exact Hrun |]. split; [reflexivity |].
  rewrite Hn, existsb_is_inf_entries by done.
  split; [reflexivity |]. intros Hfin.
  assert (Hall : Forall (fun o => o <> [] /\ nan_first o = false) outputs).
  { apply Forall_forall. intros o Ho. split.
    - rewrite Forall_forall in Hlen. specialize (Hlen o Ho).
      intros ->. simpl in Hlen. lia.
    - destruct (nan_first o) eqn:E; [| done].
      assert (existsb nan_first outputs = true); [| congruence].
      apply existsb_exists. exists o. split; [| done].
      by apply list_elem_of_In. }
  pose proof (sum_cell_ndcg_between k outputs Hall) as Hsum.
  cbv zeta in Hsum. rewrite <- Hh in Hsum.
  rewrite <- list_fmap_compose. unfold compose.
  change (@fmap list list_fmap) with (@map).
  rewrite Hlh, length_map. set (n := length outputs) in *.
  assert (Hn0 : (0 < INR n)%R) by (apply lt_0_INR; lia).
  rewrite Q2R_div; [| change 0%Q with (inject_Z 0); rewrite inject_Z_injective; lia].
  rewrite !Q2R_inject_Z, <- INR_IZR_INZ.
  set (H := IZR (sum_Z (h0 :: hs))) in *. set (S := sum_R _) in *.
  unfold Rdiv in *. rewrite !Rmult_1_l in *.
  assert (Hi : (0 < / INR n)%R) by by apply Rinv_0_lt_compat.
  destruct Hsum as [Hlo Hhi]. split.
  - replace (H * / INR n * / ln (INR k + 1))%R
      with (H * / ln (INR k + 1) * / INR n)%R by ring.
    apply Rmult_le_compat_r; lra.
  - replace (H * / INR n * / ln 2)%R with (H * / ln 2 * / INR n)%R by ring.
    apply Rmult_le_compat_r; lra.
Qed.

(** The theorem above at a test set without a [nan] positive score. *)
Lemma cell_ndcg_between_hr_bounds_witness :
  exists acc hr v,
    cell_loop TOP_K (CellAcc [] [])
      [tie_scores; float_array worst_first_scores] = Some acc /\
    cell_hr acc = Some hr /\
    cell_ndcg acc = Some (XFin v) /\
    (Q2R hr * (1 / ln (INR TOP_K + 1)) <= v <= Q2R hr * (1 / ln 2))%R.
Proof.
  destruct (cell_ndcg_between_hr_bounds TOP_K
              [tie_scores; float_array worst_first_scores])
    as (acc & hr & v & Hrun & Hhr & Hndcg & Hb).
  - discriminate.
  - repeat constructor.
  - exists acc, hr, v. split; [exact Hrun |]. split; [exact Hhr |].
    split; [exact Hndcg |]. apply Hb. reflexivity.
Defined.

(** *** The filtering cell *)

Lemma bool_index_filter {A : Type} (f : A -> bool) (P : A -> Prop)
  `{!forall x, Decision (P x)} (l : list A) :
  (forall x, f x = true <-> P x) -> bool_index f l = filter P l.
Proof.
  intros Hf. unfold bool_index. induction l as [| x l IH]; [done |].
  cbn [List.filter]. rewrite filter_cons, IH.
  destruct (decide (P x)) as [HP | HP].
  - apply Hf in HP. by rewrite HP.
  - destruct (f x) eqn:E; [apply Hf in E; contradiction | done].
Qed.

Lemma filter_test_as_filter (train test : list interaction) :
  filter_test train test
  = filter (fun r => userID r ∈ (userID <$> train) /\
                     itemID r ∈ (itemID <$> train)) test.
Proof.
  unfold filter_test.
  rewrite (bool_index_filter _ (fun r => itemID r ∈ (itemID <$> train)))
    by (intros r; apply isin_unique_true).
  rewrite (bool_index_filter _ (fun r => userID r ∈ (userID <$> train)))
    by (intros r; apply isin_unique_true).
  rewrite list_filter_filter. apply list_filter_iff. intros r. tauto.
Qed.

(** X9. The filtering cell keeps exactly the test rows whose user and whose
    item both occur in the training frame, in the order of the test frame:
    the two boolean indexings with [unique()] amount to one pass that tests
    membership in the two training columns. *)
Theorem filter_test_single_pass (train test : list interaction) :
  filter_test train test
  = filter (fun r => userID r ∈ (userID <$> train) /\
                     itemID r ∈ (itemID <$> train)) test /\
  filter_test train test `sublist_of` test.
Proof.
  split; [apply filter_test_as_filter |].
  rewrite filter_test_as_filter. apply sublist_filter.
Qed.

(** X10. Running the filtering cell a second time changes nothing, and the
    order of its two lines does not matter. *)
Theorem filter_test_idempotent_commutes (train test : list interaction) :
  filter_test train (filter_test train test) = filter_test train test /\
  bool_index (fun r => isin (userID r) (unique (userID <$> train)))
    (bool_index (fun r => isin (itemID r) (unique (itemID <$> train))) test)
  = filter_test train test.
Proof.
  split.
  - rewrite !filter_test_as_filter, list_filter_filter.
    apply list_filter_iff. intros r. tauto.
  - rewrite filter_test_as_filter.
    rewrite (bool_index_filter _ (fun r => userID r ∈ (userID <$> train)))
      by (intros r; apply isin_unique_true).
    rewrite (bool_index_filter _ (fun r => itemID r ∈ (itemID <$> train)))
      by (intros r; apply isin_unique_true).
    rewrite list_filter_filter. apply list_filter_iff. intros r. tauto.
Qed.

(** *** The leave-one-out frame *)

Lemma StronglySorted_le_NoDup_lt (l : list Z) :
  StronglySorted Z.le l -> NoDup l -> StronglySorted Z.lt l.
Proof.
  induction 1 as [| x l Hs IH Hall]; intros Hnd; [constructor |].
  apply NoDup_cons in Hnd as [Hx Hnd]. constructor; [by apply IH |].
  rewrite Forall_forall in Hall |- *. intros y Hy.
  specialize (Hall y Hy). assert (x <> y) by (intros ->; done). lia.
Qed.

(** X11. The leave-one-out frame lists the users in strictly increasing
    order of [userID] and has as many rows as the test frame has distinct
    users. *)
Theorem groupby_last_sorted_by_user (df : list interaction) :
  StronglySorted Z.lt (userID <$> groupby_last df) /\
  length (groupby_last df) = length (unique (userID <$> df)).
Proof.
  split.
  - rewrite groupby_last_users. apply StronglySorted_le_NoDup_lt.
    + apply StronglySorted_merge_sort; apply _.
    + rewrite merge_sort_Permutation. apply NoDup_unique.
  - rewrite <- (length_fmap userID), groupby_last_users.
    by rewrite merge_sort_Permutation.
Qed.

(** X12. Every row of the leave-one-out frame built from the filtered test
    frame is a row of that frame, so its user and its item occur in the
    training frame. *)
Theorem leave_one_out_ids_in_train (train test : list interaction) :
  Forall (fun r => r ∈ filter_test train test /\
                   userID r ∈ (userID <$> train) /\
                   itemID r ∈ (itemID <$> train))
         (groupby_last (filter_test train test)).
Proof.
  apply Forall_forall. intros r Hr.
  apply elem_of_groupby_last in Hr as [_ Hl].
  apply last_Some_elem_of, elem_of_group_of in Hl as [Hin _].
  split; [exact Hin |]. apply elem_of_filter_test in Hin. tauto.
Qed.

Lemma unique_go_NoDup_id (seen l : list Z) :
  NoDup l -> (forall x, x ∈ l -> x ∉ seen) -> unique_go seen l = l.
Proof.
  intros Hnd. revert seen. induction Hnd as [| x l Hx Hnd IH]; intros seen Hs.
  - reflexivity.
  - cbn [unique_go]. destruct (decide (x ∈ seen)) as [Hin | _].
    + exfalso. apply (Hs x); [by left | done].
    + f_equal. apply IH. intros y Hy. rewrite not_elem_of_cons. split.
      * intros ->. done.
      * apply Hs. by right.
Qed.

Lemma group_of_NoDup_users (df : list interaction) (r : interaction) :
  NoDup (userID <$> df) -> r ∈ df -> group_of (userID r) df = [r].
Proof.
  unfold group_of, bool_index.
  induction df as [| x df IH]; intros Hnd Hin; [by inversion Hin |].
  rewrite fmap_cons in Hnd. apply NoDup_cons in Hnd as [Hx Hnd].
  cbn [List.filter]. apply elem_of_cons in Hin as [-> | Hin].
  - rewrite bool_decide_eq_true_2 by done. f_equal.
    clear IH Hnd. induction df as [| y df IH]; [done |].
    rewrite fmap_cons, not_elem_of_cons in Hx. destruct Hx as [Hne Hx].
    cbn [List.filter]. rewrite bool_decide_eq_false_2 by done. by apply IH.
  - rewrite bool_decide_eq_false_2.
    + by apply IH.
    + intros Heq. apply Hx. rewrite Heq. by apply list_elem_of_fmap_2.
Qed.

Lemma omap_fmap_id {A B : Type} (f : B -> option A) (g : A -> B)
  (l : list A) :
  (forall x, x ∈ l -> f (g x) = Some x) -> omap f (g <$> l) = l.
Proof.
  induction l as [| x l IH]; intros H; [done |].
  rewrite fmap_cons. cbn [omap list_omap]. rewrite (H x) by by left.
  f_equal. apply IH. intros y Hy. apply H. by right.
Qed.

(** X13. Grouping the leave-one-out frame again gives the same frame: it
    already holds one row per user, ordered by user. *)
Theorem groupby_last_idempotent (df : list interaction) :
  groupby_last (groupby_last df) = groupby_last df.
Proof.
  set (loo := groupby_last df).
  assert (Hus : userID <$> loo = merge_sort Z.le (unique (userID <$> df)))
    by apply groupby_last_users.
  assert (Hnd : NoDup (userID <$> loo)).
  { rewrite Hus, merge_sort_Permutation. apply NoDup_unique. }
  assert (Hsorted : StronglySorted Z.le (userID <$> loo)).
  { rewrite Hus. apply StronglySorted_merge_sort; apply _. }
  unfold groupby_last at 1. fold loo.
  assert (Huniq : unique (userID <$> loo) = userID <$> loo).
  { apply unique_go_NoDup_id; [exact Hnd |]. intros x _. apply not_elem_of_nil. }
  rewrite Huniq.
  assert (Hsort : merge_sort Z.le (userID <$> loo) = userID <$> loo).
  { apply (StronglySorted_unique Z.le).
    - apply StronglySorted_merge_sort; apply _.
    - exact Hsorted.
    - apply merge_sort_Permutation. }
  rewrite Hsort. apply omap_fmap_id. intros r Hr.
  rewrite (group_of_NoDup_users loo r Hnd Hr).
  by apply last_row_is_last.
Qed.

(** *** Predictions for the test rows *)

(** X14. The frame of predictions has one row per row of the test frame, in
    the same order, with the same user and item and the score the model
    gives to the pair; built from the filtered test frame, it only asks the
    model about users and items that occur in the training frame. *)
Theorem predictions_frame_rows (predict : Z -> Z -> Q)
  (train test : list interaction) :
  let predictions := predictions_frame predict (filter_test train test) in
  Forall2 (fun row p =>
             p_userID p = userID row /\ p_itemID p = itemID row /\
             p_prediction p = predict (userID row) (itemID row))
          (filter_test train test) predictions /\
  Forall (fun p => p_userID p ∈ (userID <$> train) /\
                   p_itemID p ∈ (itemID <$> train)) predictions.
Proof.
  intros predictions. subst predictions. unfold predictions_frame. split.
  - apply Forall2_fmap_r, Forall_Forall2_diag, Forall_forall. by intros r _.
  - apply Forall_fmap, Forall_forall. intros r Hr. simpl.
    apply elem_of_filter_test in Hr. tauto.
Qed.

(** *** The frames of the generic evaluation *)

Section AllPredictionsMore.

Variable predict : Z -> Z -> Q.

Lemma cross_fold_lengths (item : list Z) (us : list Z)
  (st : list Z * list Z * list Q) :
  let st' := foldl (cross_body predict item) st us in
  length st'.1.1 = length st.1.1 + length us * length item /\
  length st'.1.2 = length st.1.2 + length us * length item /\
  length st'.2 = length st.2 + length us * length item.
Proof.
  revert st. induction us as [| u us IH]; intros st; cbv zeta.
  - simpl. lia.
  - cbn [foldl]. destruct (IH (cross_body predict item st u)) as (H1 & H2 & H3).
    rewrite H1, H2, H3. destruct st as [[users items] preds].
    unfold cross_body. rewrite predict_list_replicate. cbn [fst snd].
    rewrite !length_app, length_replicate, length_map. simpl. lia.
Qed.

(** X15. After the loop over the users the three accumulators [users],
    [items] and [preds] have the same length, the number of distinct
    training users times the number of distinct training items, and the
    frame built from them has that many rows. *)
Theorem cross_loop_lengths (train : list interaction) :
  let n := length (unique (userID <$> train))
           * length (unique (itemID <$> train)) in
  length (cross_loop predict train).1.1 = n /\
  length (cross_loop predict train).1.2 = n /\
  length (cross_loop predict train).2 = n /\
  length (prediction_frame (cross_loop predict train)) = n.
Proof.
  intros n. unfold cross_loop.
  destruct (cross_fold_lengths (unique (itemID <$> train))
              (unique (userID <$> train)) ([], [], []))
    as (H1 & H2 & H3).
  cbv zeta in *. simpl in H1, H2, H3.
  set (st := foldl _ _ _) in *. repeat split; try done.
  destruct st as [[users items] preds]. unfold prediction_frame.
  simpl in *. subst n. rewrite length_zip_with_l_eq.
  - rewrite length_zip_with_l_eq; lia.
  - rewrite length_zip_with_l_eq; lia.
Qed.

Lemma cross_rows_length (items users : list Z) :
  length (flat_map (user_rows predict items) users)
  = length users * length items.
Proof.
  induction users as [| u users IH]; [done |].
  cbn [flat_map]. rewrite length_app, IH. unfold user_rows.
  rewrite length_map. simpl. lia.
Qed.




(** The merge of the small training frame: the rows come out in key
    order, not in the order of the training frame. *)
Example merged_rows_small :
  (fun m => (m_userID m, m_itemID m, isnull (m_rating m)))
    <$> merge_outer small_train
          (prediction_frame (cross_loop (fun u i => inject_Z (u + i))
                                        small_train))
  = [(1, 10, false); (1, 11, false); (2, 10, true); (2, 11, false)]%Z.
Proof. vm_compute. reflexivity. Qed.

Lemma bool_index_partition_length {A : Type} (f : A -> bool) (l : list A) :
  length (bool_index f l) + length (bool_index (fun x => negb (f x)) l)
  = length l.
Proof.
  unfold bool_index. induction l as [| x l IH]; [done |].
  cbn [List.filter]. destruct (f x); simpl; lia.
Qed.

(** X17. The number of rows of [all_predictions] and the number of distinct
    (user, item) pairs of the training frame add up to the number of
    distinct training users times the number of distinct training items. *)
Theorem all_predictions_count (train : list interaction) :
  length (all_predictions predict train)
  + length (remove_dups ((fun r => (userID r, itemID r)) <$> train))
  = length (unique (userID <$> train)) * length (unique (itemID <$> train)).
Proof.
  rewrite <- cross_rows_length, all_predictions_rows, length_fmap.
  set (cross := flat_map _ _).
  rewrite <- (bool_index_partition_length (unmatched train) cross).
  f_equal. rewrite <- (length_fmap row_key (bool_index _ cross)).
  apply Permutation_length, NoDup_Permutation.
  - apply NoDup_remove_dups.
  - apply (sublist_NoDup _ (row_key <$> cross)).
    + apply NoDup_cross_keys; apply NoDup_unique.
    + apply fmap_sublist, bool_index_sublist.
  - intros [u i]. rewrite elem_of_remove_dups. split.
    + intros Hin. apply list_elem_of_fmap.
      exists (PredictionRow u i (predict u i)). split; [done |].
      apply elem_of_bool_index. split.
      * apply elem_of_cross_rows. simpl. rewrite !elem_of_unique.
        apply list_elem_of_fmap in Hin as (r & [= -> ->] & Hr).
        split; [by apply list_elem_of_fmap_2 |].
        split; [by apply list_elem_of_fmap_2 | done].
      * apply negb_true_iff, not_true_iff_false.
        rewrite unmatched_true. tauto.
    + intros (p & -> & Hp)%list_elem_of_fmap.
      apply elem_of_bool_index in Hp as [_ Hm].
      apply negb_true_iff, not_true_iff_false in Hm.
      rewrite unmatched_true in Hm.
      destruct (decide (row_key p ∈ (fun r => (userID r, itemID r)) <$> train));
        [done | contradiction].
Qed.

(** X18. Dropping only [rating] leaves the [timestamp] column in
    [all_predictions], and it is missing in every row. *)
Theorem all_predictions_timestamp_missing (train : list interaction) :
  Forall (fun a => a_timestamp a = None) (all_predictions predict train).
Proof.
  rewrite all_predictions_rows. apply Forall_fmap, Forall_forall.
  by intros p _.
Qed.

(** X19. Every row of the filtered test frame whose (user, item) pair is
    not an interaction of the training frame has its pair in
    [all_predictions], with the score the model predicts for it. *)
Theorem filtered_test_pairs_scored (train test : list interaction) :
  Forall (fun r =>
            (userID r, itemID r) ∈ ((fun x => (userID x, itemID x)) <$> train)
            \/ AllRow (userID r) (itemID r) None
                      (Some (predict (userID r) (itemID r)))
               ∈ all_predictions predict train)
         (filter_test train test).
Proof.
  apply Forall_forall. intros r Hr.
  apply elem_of_filter_test in Hr as (_ & Hu & Hi).
  destruct (decide ((userID r, itemID r)
                    ∈ (fun x => (userID x, itemID x)) <$> train)) as [Hin | Hnin];
    [by left | right].
  rewrite all_predictions_rows. apply list_elem_of_fmap.
  exists (PredictionRow (userID r) (itemID r) (predict (userID r) (itemID r))).
  split; [done |]. apply elem_of_bool_index. split.
  - apply elem_of_cross_rows. simpl. by rewrite !elem_of_unique.
  - by apply unmatched_true.
Qed.

End AllPredictionsMore.

(** *** The recorded metrics *)

Section RecordingFacts.

Variables map_at_k ndcg_at_k precision_at_k recall_at_k :
  list interaction -> list all_row -> nat -> option xreal.

(** X20. The leave-one-out cell assigns [eval_ndcg] again, after the
    generic evaluation cell: when every score array holds two or more
    scores, so that the loop does not raise, the value recorded under the
    name [ndcg] is the mean of the leave-one-out loop, not the value of
    [ndcg_at_k], while [map], [precision] and [recall] record the generic
    metrics of the first model and [ndcg2] records [ndcg_at_k] for the
    second model. *)
Theorem recorded_ndcg_is_leave_one_out (test : list interaction)
  (all_predictions1 all_predictions2 : list all_row)
  (outputs : list (list score)) (globals : gmap string (option xreal)) :
  Forall (fun o => 2 <= length o) outputs ->
  exists acc scraps,
    cell_loop TOP_K (CellAcc [] []) outputs = Some acc /\
    record_metrics map_at_k ndcg_at_k precision_at_k recall_at_k
      test all_predictions1 all_predictions2 outputs globals = Some scraps /\
    scraps !! "ndcg" = Some (cell_ndcg acc) /\
    scraps !! "map" = Some (map_at_k test all_predictions1 TOP_K) /\
    scraps !! "precision" = Some (precision_at_k test all_predictions1 TOP_K) /\
    scraps !! "recall" = Some (recall_at_k test all_predictions1 TOP_K) /\
    scraps !! "ndcg2" = Some (ndcg_at_k test all_predictions2 TOP_K).
Proof.
  intros Hlen.
  destruct (cell_loop_appends TOP_K outputs (CellAcc [] []) Hlen)
    as (acc & Hrun & _ & _).
  exists acc. unfold record_metrics, loo_eval_cell. rewrite Hrun.
  cbn [mbind option_bind].
  unfold glue_cell, glue, generic_eval_cell2, generic_eval_cell.
  cbv zeta. simplify_map_eq. eexists. split; [reflexivity |].
  split; [reflexivity |]. by simplify_map_eq.
Qed.

End RecordingFacts.

(** The theorem above at one score array and generic metrics that are all
    0: the recorded [ndcg] is the mean of the loop. *)
Lemma recorded_ndcg_is_leave_one_out_witness :
  exists acc scraps,
    cell_loop TOP_K (CellAcc [] []) [tie_scores] = Some acc /\
    record_metrics (fun _ _ _ => Some (XFin 0)) (fun _ _ _ => Some (XFin 0))
      (fun _ _ _ => Some (XFin 0)) (fun _ _ _ => Some (XFin 0))
      [] [] [] [tie_scores] ∅ = Some scraps /\
    scraps !! "ndcg" = Some (cell_ndcg acc).
Proof.
  destruct (recorded_ndcg_is_leave_one_out
              (fun _ _ _ => Some (XFin 0)) (fun _ _ _ => Some (XFin 0))
              (fun _ _ _ => Some (XFin 0)) (fun _ _ _ => Some (XFin 0))
              [] [] [] [tie_scores] ∅)
    as (acc & scraps & Hrun & Hrec & Hndcg & _).
  - repeat constructor.
  - exists acc, scraps. split; [exact Hrun |]. split; [exact Hrec | exact Hndcg].
Defined.

End NCFMore.

(** ** Properties of the xDeepFM notebook *)

Section DeepRecFacts.

Import DeepRec.

(** *** Hyperparameter preparation *)

Lemma prepare_hparams_cons (yaml : gmap string hvalue) (kv : string * hvalue)
  (kwargs : list (string * hvalue)) :
  prepare_hparams yaml (kv :: kwargs)
  = prepare_hparams (<[kv.1 := kv.2]> yaml) kwargs.
Proof. reflexivity. Qed.

Lemma prepare_hparams_not_overridden (kwargs : list (string * hvalue))
  (yaml : gmap string hvalue) (name : string) :
  name ∉ kwargs.*1 -> prepare_hparams yaml kwargs !! name = yaml !! name.
Proof.
  revert yaml. induction kwargs as [| [k v] kwargs IH]; intros yaml Hn.
  - reflexivity.
  - rewrite prepare_hparams_cons. rewrite fmap_cons, not_elem_of_cons in Hn.
    destruct Hn as [Hne Hn]. rewrite IH by exact Hn.
    simpl in *. by rewrite lookup_insert_ne.
Qed.

Lemma prepare_hparams_overridden (kwargs : list (string * hvalue))
  (yaml : gmap string hvalue) (name : string) (v : hvalue) :
  NoDup kwargs.*1 -> (name, v) ∈ kwargs ->
  prepare_hparams yaml kwargs !! name = Some v.
Proof.
  revert yaml. induction kwargs as [| [k x] kwargs IH]; intros yaml Hnd Hin.
  - inversion Hin.
  - rewrite prepare_hparams_cons. rewrite fmap_cons in Hnd.
    apply NoDup_cons in Hnd as [Hk Hnd]. simpl in *.
    apply elem_of_cons in Hin as [Heq | Hin].
    + injection Heq as -> ->.
      rewrite prepare_hparams_not_overridden by exact Hk.
      apply lookup_insert_eq.
    + by apply IH.
Qed.

(** C4. The bag [prepare_hparams] returns maps every option name to the
    value of the override given for it, and to the value of the base file
    when no override is given for it. *)
Theorem prepare_hparams_merges (yaml : gmap string hvalue)
  (kwargs : list (string * hvalue)) :
  NoDup kwargs.*1 ->
  (forall name v, (name, v) ∈ kwargs ->
     prepare_hparams yaml kwargs !! name = Some v) /\
  (forall name, name ∉ kwargs.*1 ->
     prepare_hparams yaml kwargs !! name = yaml !! name).
Proof.
  intros Hnd. split.
  - intros name v. by apply prepare_hparams_overridden.
  - intros name. apply prepare_hparams_not_overridden.
Qed.

(** The theorem at the first call of the notebook over the sample base
    file: [epochs] is overridden, [method] is not. *)
Lemma prepare_hparams_merges_witness :
  prepare_hparams sample_yaml synthetic_kwargs !! "epochs" = Some (HInt 15) /\
  prepare_hparams sample_yaml synthetic_kwargs !! "method"
  = sample_yaml !! "method".
Proof.
  destruct (prepare_hparams_merges sample_yaml synthetic_kwargs) as [Hov Hbase].
  - apply (bool_decide_unpack _). vm_compute. exact I.
  - split.
    + apply Hov. unfold synthetic_kwargs.
      repeat first [apply list_elem_of_here | apply list_elem_of_further].
    + apply Hbase. apply (bool_decide_unpack _). vm_compute. exact I.
Defined.

(** *** The FFM text format: splitting and numerals *)

Lemma append_cons (c : ascii) (s t : string) :
  String c s +:+ t = String c (s +:+ t).
Proof. reflexivity. Qed.

Lemma split_lacks (sep : ascii) (w : string) :
  lacks sep w -> split sep w = [w].
Proof.
  induction w as [| c w IH]; intros Hw; [done |].
  destruct Hw as [Hc Hw]. cbn [split].
  destruct (decide (c = sep)); [done |]. by rewrite IH.
Qed.

Lemma split_append (sep : ascii) (w rest : string) :
  lacks sep w -> split sep (w +:+ String sep rest) = w :: split sep rest.
Proof.
  induction w as [| c w IH]; intros Hw.
  - change (EmptyString +:+ String sep rest) with (String sep rest).
    cbn [split]. by destruct (decide (sep = sep)).
  - destruct Hw as [Hc Hw]. rewrite append_cons. cbn [split].
    destruct (decide (c = sep)); [done |]. by rewrite IH.
Qed.

Lemma lacks_append (sep : ascii) (a b : string) :
  lacks sep a -> lacks sep b -> lacks sep (a +:+ b).
Proof.
  induction a as [| c a IH]; intros Ha Hb; [done |].
  destruct Ha as [Hc Ha]. rewrite append_cons. split; [done | by apply IH].
Qed.

Lemma lacks_of_split (sep d : ascii) (s : string) :
  d <> sep -> Forall (lacks sep) (split d s) -> lacks sep s.
Proof.
  intros Hd. induction s as [| c s IH]; intros Hall; [done |].
  cbn [split] in Hall. destruct (decide (c = d)) as [-> | Hne].
  - apply Forall_cons in Hall as [_ Hall]. split; [done | by apply IH].
  - destruct (split d s) as [| w ws].
    + apply Forall_cons in Hall as [[Hc _] _]. split; [done |].
      apply IH. constructor.
    + apply Forall_cons in Hall as [[Hc Hw] Hws]. split; [done |].
      apply IH. by constructor.
Qed.

Lemma parse_digits_lacks (sep : ascii) (s : string) (acc n : Z) :
  Ascii.is_nat sep = None -> parse_digits acc s = Some n -> lacks sep s.
Proof.
  intros Hsep. revert acc. induction s as [| c s IH]; intros acc Hp; [done |].
  cbn [parse_digits] in Hp. destruct (Ascii.is_nat c) as [d |] eqn:Hc; [| done].
  split; [| by eapply IH]. intros ->. congruence.
Qed.

Lemma parse_int_lacks (sep : ascii) (s : string) (n : Z) :
  Ascii.is_nat sep = None -> parse_int s = Some n -> lacks sep s.
Proof.
  intros Hsep Hp. destruct s as [| c s]; [done |].
  by apply (parse_digits_lacks sep _ 0%Z n).
Qed.

Lemma parse_digits_nonneg (s : string) (acc n : Z) :
  (0 <= acc)%Z -> parse_digits acc s = Some n -> (0 <= n)%Z.
Proof.
  revert acc. induction s as [| c s IH]; intros acc Hacc Hp.
  - by injection Hp as <-.
  - cbn [parse_digits] in Hp. destruct (Ascii.is_nat c) as [d |]; [| done].
    apply (IH (10 * acc + Z.of_nat d)%Z); [lia | done].
Qed.

Lemma parse_unsigned_lacks (sep : ascii) (v : string) (x : Q) :
  Ascii.is_nat sep = None -> sep <> "."%char ->
  parse_unsigned v = Some x -> lacks sep v.
Proof.
  intros Hsep Hdot Hp. apply (lacks_of_split sep "."); [done |].
  unfold parse_unsigned in Hp.
  destruct (split "." v) as [| a [| b [| c l]]]; [done | | | done].
  - destruct (parse_int a) as [n |] eqn:Ha; [| done].
    repeat constructor. by apply (parse_int_lacks sep a n).
  - destruct (decide _) as [_ | _]; [done |].
    destruct (parse_digits 0 a) as [n |] eqn:Ha; [| done].
    destruct (parse_digits 0 b) as [m |] eqn:Hb; [| done].
    repeat constructor.
    + by apply (parse_digits_lacks sep a 0%Z n).
    + by apply (parse_digits_lacks sep b 0%Z m).
Qed.

Lemma strip_sign_lacks (sep : ascii) (s : string) :
  sep <> "+"%char -> sep <> "-"%char ->
  lacks sep (strip_sign s).2 -> lacks sep s.
Proof.
  intros Hp Hm. destruct s as [| c r]; [done |]. unfold strip_sign.
  destruct (decide (c = "-"%char)) as [-> | ?];
    [intros H; split; [congruence | exact H] |].
  destruct (decide (c = "+"%char)) as [-> | ?];
    [intros H; split; [congruence | exact H] |].
  done.
Qed.

Lemma lower_e_lacks (sep : ascii) (s : string) :
  sep <> "E"%char -> lacks sep (lower_e s) -> lacks sep s.
Proof.
  intros HE. induction s as [| c s IH]; [done |].
  cbn [lower_e lacks]. intros [Hc Hs]. split; [| by apply IH].
  destruct (decide (c = "E"%char)) as [-> | ?]; [congruence | done].
Qed.

Lemma parse_signed_decimal_lacks (sep : ascii) (v : string) (x : Q) :
  Ascii.is_nat sep = None -> sep <> "."%char ->
  sep <> "+"%char -> sep <> "-"%char ->
  parse_signed_decimal v = Some x -> lacks sep v.
Proof.
  intros Hsep Hdot Hp Hm Hv. apply strip_sign_lacks; [done | done |].
  unfold parse_signed_decimal in Hv.
  destruct (parse_unsigned (strip_sign v).2) as [y |] eqn:Hy; [| done].
  by apply (parse_unsigned_lacks sep _ y).
Qed.

Lemma parse_signed_int_lacks (sep : ascii) (v : string) (x : Z) :
  Ascii.is_nat sep = None -> sep <> "+"%char -> sep <> "-"%char ->
  parse_signed_int v = Some x -> lacks sep v.
Proof.
  intros Hsep Hp Hm Hv. apply strip_sign_lacks; [done | done |].
  unfold parse_signed_int in Hv.
  destruct (parse_int (strip_sign v).2) as [y |] eqn:Hy; [| done].
  by apply (parse_int_lacks sep _ y).
Qed.

(** A character that no number holds: not a digit, a point, a sign or an
    exponent marker. *)
Lemma parse_number_lacks (sep : ascii) (v : string) (x : Q) :
  Ascii.is_nat sep = None -> sep <> "."%char ->
  sep <> "+"%char -> sep <> "-"%char ->
  sep <> "e"%char -> sep <> "E"%char ->
  parse_number v = Some x -> lacks sep v.
Proof.
  intros Hsep Hdot Hp Hm He HE Hv. apply lower_e_lacks; [done |].
  apply (lacks_of_split sep "e"); [done |].
  unfold parse_number in Hv.
  destruct (split "e" (lower_e v)) as [| a [| b [| c l]]]; [done | | | done].
  - repeat constructor. by apply (parse_signed_decimal_lacks sep a x).
  - destruct (parse_signed_decimal a) as [y |] eqn:Ha; [| done].
    destruct (parse_signed_int b) as [z |] eqn:Hb; [| done].
    repeat constructor.
    + by apply (parse_signed_decimal_lacks sep a y).
    + by apply (parse_signed_int_lacks sep b z).
Qed.

(** Signed values, values with an exponent and values that leave out the
    integer or the fractional part are numbers. *)
Example parse_number_examples :
  (parse_number "-0.5" ≫= fun x => Some (Qred x)) = Some (- (1 # 2))%Q /\
  (parse_number "1.25e-3" ≫= fun x => Some (Qred x)) = Some (1 # 800)%Q /\
  (parse_number "2E4" ≫= fun x => Some (Qred x)) = Some (20000 # 1)%Q /\
  (parse_number ".5" ≫= fun x => Some (Qred x)) = Some (1 # 2)%Q /\
  (parse_number "+5." ≫= fun x => Some (Qred x)) = Some (5 # 1)%Q /\
  parse_number "." = None /\ parse_number "1e" = None /\
  parse_number "1.2.3" = None /\ parse_number "x" = None.
Proof. vm_compute. by repeat split. Qed.

(** What the boolean test of a well-formed triple says. *)
Lemma wf_token_spec (tk : token_text) :
  wf_token tk = true ->
  exists fi ti x,
    parse_int (t_field tk) = Some fi /\
    parse_int (t_feat tk) = Some ti /\
    parse_number (t_value tk) = Some x /\
    (1 <= fi)%Z /\ (1 <= ti)%Z.
Proof.
  unfold wf_token. intros H.
  destruct (parse_int (t_field tk)) as [fi |]; [| done].
  destruct (parse_int (t_feat tk)) as [ti |]; [| done].
  destruct (parse_number (t_value tk)) as [x |]; [| done].
  apply andb_true_iff in H as [H1 H2].
  exists fi, ti, x. repeat split; try done; lia.
Qed.

Lemma split_render_token (tk : token_text) :
  wf_token tk = true ->
  split ":" (render_token tk) = [t_field tk; t_feat tk; t_value tk].
Proof.
  intros (fi & ti & x & Hf & Ht & Hv & _)%wf_token_spec.
  unfold render_token.
  change (":" +:+ t_feat tk +:+ ":" +:+ t_value tk)
    with (String ":" (t_feat tk +:+ String ":" (t_value tk))).
  rewrite split_append by by apply (parse_int_lacks _ _ fi).
  rewrite split_append by by apply (parse_int_lacks _ _ ti).
  rewrite split_lacks; [done |].
  by apply (parse_number_lacks _ _ x).
Qed.

Lemma render_token_lacks_space (tk : token_text) :
  wf_token tk = true -> lacks " " (render_token tk).
Proof.
  intros (fi & ti & x & Hf & Ht & Hv & _)%wf_token_spec.
  unfold render_token.
  apply lacks_append; [by apply (parse_int_lacks _ _ fi) |].
  apply lacks_append; [done |].
  apply lacks_append; [by apply (parse_int_lacks _ _ ti) |].
  apply lacks_append; [done |].
  by apply (parse_number_lacks _ _ x).
Qed.

Lemma split_render_tokens (w : string) (toks : list token_text) :
  lacks " " w ->
  forallb wf_token toks = true ->
  split " " (w +:+ render_tokens toks) = w :: (render_token <$> toks).
Proof.
  revert w. induction toks as [| tk toks IH]; intros w Hw Hall.
  - cbn [render_tokens fmap list_fmap].
    replace (w +:+ EmptyString) with w; [by apply split_lacks |].
    clear. induction w as [| c w IH]; [done |]. by rewrite append_cons, <- IH.
  - cbn [forallb] in Hall. apply andb_true_iff in Hall as [Htk Hall].
    cbn [render_tokens].
    change (" " +:+ render_token tk +:+ render_tokens toks)
      with (String " " (render_token tk +:+ render_tokens toks)).
    rewrite split_append by done.
    rewrite (IH (render_token tk)); [done | | done].
    by apply render_token_lacks_space.
Qed.

(** *** Parsing well-formed lines *)

(** The parser reads from the text of a well-formed triple the triple it
    denotes, with both ids lowered by one. *)
Lemma parse_token_render (lineno : nat) (tk : token_text) :
  wf_token tk = true ->
  parse_token lineno (render_token tk) = inr (denote_token tk).
Proof.
  intros Hwf. unfold parse_token. rewrite split_render_token by done.
  unfold denote_token, field_id, feature_id, value_of.
  by apply wf_token_spec in Hwf as (fi & ti & x & -> & -> & -> & _).
Qed.

Lemma parse_tokens_render (lineno : nat) (toks : list token_text) :
  forallb wf_token toks = true ->
  parse_tokens lineno (render_token <$> toks) = inr (denote_token <$> toks).
Proof.
  induction toks as [| tk toks IH]; intros Hall; [done |].
  cbn [forallb] in Hall. apply andb_true_iff in Hall as [Htk Hall].
  rewrite !fmap_cons. cbn [parse_tokens].
  by rewrite (parse_token_render lineno tk Htk), (IH Hall).
Qed.

Lemma label_text_cases (lab : string) :
  bool_decide (lab = "0") || bool_decide (lab = "1") = true ->
  lacks " " lab /\ parse_label lab = Some (label_value lab) /\
  (label_value lab = 0%Z \/ label_value lab = 1%Z).
Proof.
  intros H. apply orb_true_iff in H as [H | H];
    apply bool_decide_eq_true in H; subst lab; vm_compute; intuition congruence.
Qed.

Lemma parse_line_render (lineno : nat) (lt : string * list token_text) :
  wf_line lt = true ->
  parse_line lineno (render_line lt) = inr (denote_line lt).
Proof.
  unfold wf_line. intros H. apply andb_true_iff in H as [Hlab Htoks].
  destruct (label_text_cases _ Hlab) as (Hsp & Hpl & _).
  unfold parse_line, render_line.
  rewrite split_render_tokens by done.
  by rewrite Hpl, (parse_tokens_render lineno lt.2 Htoks).
Qed.

(** A line with a negative value and a value with an exponent parses. *)
Example parse_line_signed_value :
  parse_line 0 "1 1:1:-0.5 40:2:1e0"
  = inr (denote_line ("1", [TokenText "1" "1" "-0.5";
                            TokenText "40" "2" "1e0"])).
Proof.
  apply (parse_line_render 0 ("1", [TokenText "1" "1" "-0.5";
                                    TokenText "40" "2" "1e0"])).
  reflexivity.
Qed.


(** *** Batches *)




(** A successful parse does not depend on the line number. *)
Lemma parse_token_lineno (n m : nat) (tok : string) (f : feature) :
  parse_token n tok = inr f -> parse_token m tok = inr f.
Proof.
  unfold parse_token.
  destruct (split ":" tok) as [| a [| b [| c [| d l]]]]; try done.
  destruct (parse_int a); [| done]. destruct (parse_int b); [| done].
  by destruct (parse_number c).
Qed.

Lemma parse_tokens_lineno (n m : nat) (toks : list string)
  (fs : list feature) :
  parse_tokens n toks = inr fs -> parse_tokens m toks = inr fs.
Proof.
  revert fs. induction toks as [| tok toks IH]; intros fs; [done |].
  cbn [parse_tokens].
  destruct (parse_token n tok) as [e | f] eqn:Hf; [done |].
  rewrite (parse_token_lineno n m tok f Hf).
  destruct (parse_tokens n toks) as [e | fs'] eqn:Hfs; [done |].
  by rewrite (IH fs' eq_refl).
Qed.

Lemma parse_line_lineno (n m : nat) (line : string) (r : ffm_record) :
  parse_line n line = inr r -> parse_line m line = inr r.
Proof.
  unfold parse_line. destruct (split " " line) as [| lab toks]; [done |].
  destruct (parse_label lab); [| done].
  destruct (parse_tokens n toks) as [e | fs] eqn:Hfs; [done |].
  by rewrite (parse_tokens_lineno n m toks fs Hfs).
Qed.




(** *** Groups of consecutive lines *)










(** *** Malformed lines *)

Lemma parse_token_error (n : nat) (tok : string) (e : parse_error) :
  parse_token n tok = inl e -> pe_line e = n /\ pe_token e = tok.
Proof.
  unfold parse_token.
  destruct (split ":" tok) as [| a [| b [| c [| d l]]]];
    try (intros [= <-]; done).
  destruct (parse_int a); [| intros [= <-]; done].
  destruct (parse_int b); [| intros [= <-]; done].
  destruct (parse_number c); [done | intros [= <-]; done].
Qed.

Lemma bad_token_fails (n : nat) (tok : string) :
  bad_token tok -> exists e, parse_token n tok = inl e.
Proof.
  unfold bad_token, parse_token.
  destruct (split ":" tok) as [| a [| b [| c [| d l]]]]; try by eexists.
  intros [Ha | Hb].
  - rewrite Ha. by eexists.
  - rewrite Hb. destruct (parse_int a); by eexists.
Qed.

Lemma parse_tokens_bad (n : nat) (toks : list string) :
  Exists bad_token toks ->
  exists e, parse_tokens n toks = inl e /\
    pe_line e = n /\ pe_token e ∈ toks /\
    parse_token n (pe_token e) = inl e.
Proof.
  induction toks as [| tok toks IH]; intros Hex; [by inversion Hex |].
  cbn [parse_tokens]. destruct (parse_token n tok) as [e | f] eqn:Htok.
  - exists e. destruct (parse_token_error n tok e Htok) as [Hl Ht].
    rewrite Ht. repeat split; [done | by left | done].
  - apply Exists_cons in Hex as [Hbad | Hex].
    + destruct (bad_token_fails n tok Hbad) as [e He]. congruence.
    + destruct (IH Hex) as (e & -> & Hl & Ht & Hp).
      exists e. repeat split; [done | by right | done].
Qed.

(** A malformed line fails to parse; the error names the line and a token
    of the line that fails for the reported reason. *)
Lemma parse_line_malformed (n : nat) (line : string) :
  malformed line ->
  exists e, parse_line n line = inl e /\
    pe_line e = n /\ pe_token e ∈ split " " line /\
    (pe_reason e = BadLabel \/ parse_token n (pe_token e) = inl e).
Proof.
  unfold malformed, parse_line. intros Hex.
  destruct (split " " line) as [| lab toks]; [by inversion Hex |].
  simpl in Hex. destruct (parse_label lab).
  - destruct (parse_tokens_bad n toks Hex) as (e & -> & Hl & Ht & Hp).
    exists e. repeat split; [done | by right | by right].
  - eexists. repeat split; [by left | by left].
Qed.

(** The iterator stops at the first line that fails to parse: its outcome
    is that line's error, the lines after it are never looked at, and the
    batches produced are among those of the lines before it. *)
Lemma load_go_fails (field_count batch_size : nat) (pre post : list string)
  (bad : string) (e : parse_error) :
  Forall (fun line => exists r, parse_line 0 line = inr r) pre ->
  forall (lineno : nat) (pending : list ffm_record),
    parse_line (lineno + length pre) bad = inl e ->
    let res := load_go field_count batch_size lineno pending
                 (pre ++ bad :: post) in
    res.2 = Some e /\
    res = load_go field_count batch_size lineno pending (pre ++ [bad]) /\
    res.1 `prefix_of` (load_go field_count batch_size lineno pending pre).1.
Proof.
  induction 1 as [| line pre [r Hr] _ IH]; intros lineno pending Hbad.
  - simpl in Hbad. rewrite Nat.add_0_r in Hbad. cbn [app load_go].
    rewrite Hbad. repeat split. apply prefix_nil.
  - cbn [app load_go]. rewrite (parse_line_lineno 0 lineno line r Hr).
    assert (Hbad' : parse_line (S lineno + length pre) bad = inl e).
    { rewrite <- Hbad. f_equal. simpl. lia. }
    destruct (length (pending ++ [r]) =? batch_size).
    + destruct (IH (S lineno) [] Hbad') as (He & Heq & Hpre).
      cbn [fst snd]. split; [exact He |]. split.
      * by rewrite Heq.
      * by apply prefix_cons.
    + apply (IH (S lineno) (pending ++ [r]) Hbad').
Qed.

(** C7. A malformed line makes the iterator fail at that line with a parse
    error that names the line, an offending token of it and the reason;
    nothing after the line is read and no batch is produced from it or from
    later lines. *)
Theorem malformed_line_fails_fast (field_count batch_size : nat)
  (pre post : list string) (bad : string) :
  Forall (fun line => exists r, parse_line 0 line = inr r) pre ->
  malformed bad ->
  exists e,
    parse_line (length pre) bad = inl e /\
    pe_line e = length pre /\
    pe_token e ∈ split " " bad /\
    (pe_reason e = BadLabel \/
     parse_token (length pre) (pe_token e) = inl e) /\
    reason_text (pe_reason e) <> EmptyString /\
    (load_data field_count batch_size (pre ++ bad :: post)).2 = Some e /\
    load_data field_count batch_size (pre ++ bad :: post)
    = load_data field_count batch_size (pre ++ [bad]) /\
    (load_data field_count batch_size (pre ++ bad :: post)).1
    `prefix_of` (load_data field_count batch_size pre).1.
Proof.
  intros Hpre Hbad.
  destruct (parse_line_malformed (length pre) bad Hbad)
    as (e & He & Hl & Ht & Hr).
  exists e. split; [exact He |]. split; [exact Hl |]. split; [exact Ht |].
  split; [exact Hr |]. split; [by destruct (pe_reason e) |].
  by apply (load_go_fails field_count batch_size pre post bad e Hpre 0 []).
Qed.

(** The theorem above on a file whose fourth line has a two-part token. *)
Lemma malformed_line_fails_fast_witness :
  (load_data 3 2 (toy_lines ++ "0 1:2" :: ["1 1:1:1"])).2
  = Some (ParseError 3 "1:2" WrongTokenCount) /\
  length (load_data 3 2 (toy_lines ++ "0 1:2" :: ["1 1:1:1"])).1 = 1.
Proof.
  destruct (malformed_line_fails_fast 3 2 toy_lines ["1 1:1:1"] "0 1:2")
    as (e & He & _ & _ & _ & _ & Hres & _ & _).
  - repeat constructor; eexists; vm_compute; reflexivity.
  - unfold malformed. apply Exists_cons_hd. exact I.
  - vm_compute in He. injection He as <-.
    split; [exact Hres | vm_compute; reflexivity].
Defined.

(** *** The model wrapper: frame and failure propagation *)

Section RuntimeFacts.

Context {rt_state fw_error : Type}.
Variable runtime :
  forall T : Type, request T -> rt_state -> rt_state * (fw_error + T).
Variable metrics : list Q -> list Z -> gmap string Q.

Local Abbreviation M := (@M rt_state fw_error).
Local Abbreviation world := (@world rt_state fw_error).

Lemma failures_app (l1 l2 : list (any_request * option fw_error)) :
  failures (l1 ++ l2) = failures l1 ++ failures l2.
Proof. apply omap_app. Qed.

Lemma transparent_ret {A : Type} (x : A) : transparent (ret x : M A).
Proof.
  intros w. split; [done |]. exists []. by rewrite app_nil_r.
Qed.

Lemma transparent_throw_parse {A : Type} (e : parse_error) :
  transparent (throw (ParseFailure e) : M A).
Proof.
  intros w. split; [done |]. exists []. by rewrite app_nil_r.
Qed.

Lemma transparent_get_int (name : string) :
  transparent (get_int name : M Z).
Proof.
  intros w. unfold get_int.
  destruct (w_bag w !! name) as [[] |]; simpl;
    (split; [done |]; exists []; by rewrite app_nil_r).
Qed.

Lemma transparent_get_bag : transparent (get_bag : M _).
Proof.
  intros w. split; [done |]. exists []. by rewrite app_nil_r.
Qed.

Lemma transparent_call {T : Type} (req : request T) :
  transparent (call runtime req).
Proof.
  intros w. unfold call.
  destruct (runtime T req (w_rt w)) as [rt' [e | x]]; simpl.
  - split; [done |]. exists [(AnyRequest req, Some e)]. split; [done |].
    exists [], (AnyRequest req). done.
  - split; [done |]. exists [(AnyRequest req, None)]. done.
Qed.

Lemma transparent_bind {A B : Type} (m : M A) (k : A -> M B) :
  transparent m -> (forall x, transparent (k x)) -> transparent (bind m k).
Proof.
  intros Hm Hk w. unfold bind.
  destruct (Hm w) as (Hbag & entries & Hlog & Htr).
  destruct (m w) as [w1 [e | x]]; simpl in *.
  - split; [done |]. exists entries. split; [done |]. destruct e; done.
  - destruct (Hk x w1) as (Hbag2 & entries2 & Hlog2 & Htr2).
    split; [congruence |]. exists (entries ++ entries2). split.
    + rewrite Hlog2, Hlog. by rewrite app_assoc.
    + destruct (raised (k x w1).2) as [e |]; simpl in *.
      * destruct Htr2 as (pre & req & -> & Hpre).
        exists (entries ++ pre), req. split; [by rewrite app_assoc |].
        by rewrite failures_app, Htr, Hpre.
      * by rewrite failures_app, Htr, Htr2.
Qed.

Lemma transparent_for_each {A B : Type} (body : A -> M B) (xs : list A) :
  (forall x, transparent (body x)) -> transparent (for_each body xs).
Proof.
  intros Hb. induction xs as [| x xs IH]; simpl.
  - apply transparent_ret.
  - apply transparent_bind; [apply Hb |]. intros y.
    apply transparent_bind; [apply IH |]. intros ys. apply transparent_ret.
Qed.

Lemma transparent_repeat_n (n : nat) (body : M unit) :
  transparent body -> transparent (repeat_n n body).
Proof.
  intros Hb. induction n as [| n IH]; simpl.
  - apply transparent_ret.
  - apply transparent_bind; [apply Hb |]. intros _. apply IH.
Qed.

Lemma transparent_with_timer {A : Type} (body : M A) :
  transparent body -> transparent (with_timer body).
Proof.
  intros Hb w. unfold with_timer.
  destruct (Hb (set_timer true w)) as (Hbag & entries & Hlog & Htr).
  destruct (body (set_timer true w)) as [w1 res]. simpl in *.
  split; [done |]. by exists entries.
Qed.

Lemma transparent_load_data_from_file (path : string) :
  transparent (load_data_from_file runtime path).
Proof.
  unfold load_data_from_file.
  apply transparent_bind; [apply transparent_get_int |]. intros fc.
  apply transparent_bind; [apply transparent_get_int |]. intros bs.
  apply transparent_bind; [apply transparent_call |]. intros lines.
  apply transparent_ret.
Qed.

Lemma transparent_for_batches {A : Type}
  (src : list ffm_batch * option parse_error) (body : ffm_batch -> M A) :
  (forall b, transparent (body b)) -> transparent (for_batches src body).
Proof.
  intros Hb. unfold for_batches.
  apply transparent_bind; [by apply transparent_for_each |]. intros ys.
  destruct src.2; [apply transparent_throw_parse | apply transparent_ret].
Qed.

Lemma transparent_run_eval (m : model) (file : string) :
  transparent (run_eval runtime metrics m file).
Proof.
  unfold run_eval.
  apply transparent_bind; [apply transparent_load_data_from_file |].
  intros src. apply transparent_bind.
  - apply transparent_for_batches. intros b. apply transparent_call.
  - intros preds. apply transparent_ret.
Qed.

Lemma transparent_fit (m : model) (train_file valid_file : string) :
  transparent (fit runtime metrics m train_file valid_file).
Proof.
  unfold fit.
  apply transparent_bind; [apply transparent_get_int |]. intros epochs.
  apply transparent_bind; [| intros _; apply transparent_ret].
  apply transparent_repeat_n.
  apply transparent_bind; [apply transparent_load_data_from_file |].
  intros src. apply transparent_bind.
  - apply transparent_for_batches. intros b. apply transparent_call.
  - intros _. apply transparent_bind; [apply transparent_run_eval |].
    intros _. apply transparent_ret.
Qed.

Lemma transparent_predict (m : model) (infile outfile : string) :
  transparent (predict runtime m infile outfile).
Proof.
  unfold predict.
  apply transparent_bind; [apply transparent_load_data_from_file |].
  intros src. apply transparent_bind.
  - apply transparent_for_batches. intros b. apply transparent_call.
  - intros preds. apply transparent_bind; [apply transparent_call |].
    intros _. apply transparent_ret.
Qed.

Lemma transparent_run_op (m : model) (op : model_op) :
  transparent (run_op runtime metrics m op).
Proof.
  destruct op; simpl; (apply transparent_bind;
    [| intros _; apply transparent_ret]).
  - apply transparent_fit.
  - apply transparent_run_eval.
  - apply transparent_predict.
Qed.

Lemma transparent_run_cell (m : model) (cell : bool * model_op) :
  transparent (run_cell runtime metrics m cell).
Proof.
  unfold run_cell. destruct cell.1.
  - apply transparent_with_timer, transparent_run_op.
  - apply transparent_run_op.
Qed.

Lemma transparent_XDeepFMModel (seed : option Z) :
  transparent (XDeepFMModel runtime seed).
Proof.
  unfold XDeepFMModel.
  do 4 (apply transparent_bind; [apply transparent_get_int |]; intros _).
  apply transparent_bind; [apply transparent_get_bag |]. intros hparams.
  apply transparent_bind; [apply transparent_call |]. intros _.
  apply transparent_ret.
Qed.

Lemma transparent_notebook_run (seed : option Z)
  (cells : list (bool * model_op)) :
  transparent (notebook_run runtime metrics seed cells).
Proof.
  unfold notebook_run.
  apply transparent_bind; [apply transparent_XDeepFMModel |]. intros m.
  apply transparent_bind; [| intros _; apply transparent_ret].
  apply transparent_for_each. intros cell. apply transparent_run_cell.
Qed.

Lemma no_failures_no_entry (entries : list (any_request * option fw_error))
  (req : any_request) (e : fw_error) :
  failures entries = [] -> (req, Some e) ∉ entries.
Proof.
  intros Hf Hin. assert (e ∈ failures entries) as He.
  { apply list_elem_of_omap. by exists (req, Some e). }
  rewrite Hf in He. inversion He.
Qed.

(** What a transparent computation guarantees about a failing call. *)
Lemma transparent_failure {A : Type} (m : M A) (w : world) :
  transparent m ->
  exists entries,
    w_log (m w).1 = w_log w ++ entries /\
    forall req e, (req, Some e) ∈ entries ->
      (m w).2 = inl (FrameworkError e) /\
      failures entries = [e] /\
      last entries = Some (req, Some e).
Proof.
  intros Hm. destruct (Hm w) as (_ & entries & Hlog & Htr).
  exists entries. split; [exact Hlog |]. intros req e Hin.
  destruct (raised (m w).2) as [e' |] eqn:Hr; simpl in Htr.
  - destruct Htr as (pre & req' & -> & Hpre).
    apply elem_of_app in Hin as [Hin | Hin].
    + by apply no_failures_no_entry in Hin.
    + apply list_elem_of_singleton in Hin. injection Hin as <- <-.
      split; [| split].
      * destruct (m w).2 as [[] |]; simpl in Hr; try discriminate.
        by injection Hr as ->.
      * by rewrite failures_app, Hpre.
      * apply last_snoc.
  - by apply no_failures_no_entry in Hin.
Qed.

(** C5. Model construction, [fit], [run_eval] and [predict] leave the
    hyperparameter bag as they found it, and at the end of a run of the
    notebook the bag still maps every option name to the value
    [prepare_hparams] gave it. *)
Theorem hparams_bag_immutable (yaml : gmap string hvalue)
  (kwargs : list (string * hvalue)) (seed : option Z)
  (cells : list (bool * model_op)) (rt : rt_state) :
  let hparams := prepare_hparams yaml kwargs in
  (forall (w : world), w_bag (XDeepFMModel runtime seed w).1 = w_bag w) /\
  (forall (m : model) (op : model_op) (w : world),
     w_bag (run_op runtime metrics m op w).1 = w_bag w) /\
  (forall name,
     w_bag (notebook_run runtime metrics seed cells
              (initial_world hparams rt)).1 !! name
     = hparams !! name).
Proof.
  intros hparams. split; [| split].
  - intros w. apply transparent_XDeepFMModel.
  - intros m op w. apply transparent_run_op.
  - intros name.
    destruct (transparent_notebook_run seed cells (initial_world hparams rt))
      as [-> _].
    reflexivity.
Qed.

(** C8. Whenever a call into the runtime fails during [fit], [run_eval] or
    [predict] (inside a [Timer] or not), the operation ends with exactly
    that failure, the failing call is the last call made and the only one
    that failed: the failure is not handled, replaced or retried. *)
Theorem framework_failures_propagate (m : model) (cell : bool * model_op)
  (w : world) :
  let out := run_cell runtime metrics m cell w in
  exists entries,
    w_log out.1 = w_log w ++ entries /\
    forall req e, (req, Some e) ∈ entries ->
      out.2 = inl (FrameworkError e) /\
      failures entries = [e] /\
      last entries = Some (req, Some e).
Proof.
  intros out. apply transparent_failure, transparent_run_cell.
Qed.

End RuntimeFacts.

(** A run of the first experiment on the toy runtime: the second training
    step fails; the run ends with that failure after one evaluation pass and
    two training calls, and the bag is the one the run started with. *)
Example toy_notebook_run :
  let out := notebook_run toy_runtime toy_metrics None synthetic_cells
               (initial_world toy_hparams 0) in
  out.2 = inl (FrameworkError "out of memory") /\
  failures (w_log out.1) = ["out of memory"] /\
  snd <$> last (w_log out.1) = Some (Some "out of memory") /\
  length (w_log out.1) = 7 /\
  w_bag out.1 = toy_hparams.
Proof. vm_compute. repeat split; reflexivity. Qed.

End DeepRecFacts.
